(** * geo-area-calculator: the walk tracker and its unit table

    A shallow embedding of [types.ts], [constants.ts] and [App.tsx].

    - JavaScript numbers are IEEE-754 binary64 values: they are modelled by
      Rocq's primitive [float], whose operations are the same binary64
      operations (round to nearest, ties to even).
    - A JavaScript object used as a table is a [gmap string _]; reading a key
      that is absent yields [None], JavaScript's [undefined].
    - A React event handler reads the values of the render it was created in
      (its closure) and queues state updates; it is a computation in the
      [Handler] monad below, taking that render's state as an argument. *)

From Stdlib Require Import Floats ZArith QArith Qabs Ascii.
From stdpp Require Import gmap strings list pretty.

Set Warnings "-inexact-float".
Set Default Proof Using "Type".

(** ** JavaScript values used by the program *)

Module JS.

(** [ToPropertyKey] on a value that is a string or [undefined]. *)
Definition ToPropertyKey (v : option string) : string :=
  match v with
  | Some s => s
  | None => "undefined"
  end.

(** An object literal with computed keys, [{ [k1]: v1, [k2]: v2, ... }]:
    the properties are defined in source order, a later one replacing an
    earlier one with the same key. *)
Definition object_literal {A} (props : list (option string * A)) : gmap string A :=
  fold_left (fun o kv => <[ToPropertyKey kv.1 := kv.2]> o) props ∅.

(** [ToNumber] on a value that is a number or [undefined]. *)
Definition ToNumber (v : option float) : float :=
  match v with
  | Some x => x
  | None => nan
  end.

(** [ToBoolean] on a value of type [string | null]. *)
Definition truthy (v : option string) : bool :=
  match v with
  | Some s => negb (String.eqb s "")
  | None => false
  end.

(** [Array.prototype.join]. *)
Definition join (sep : string) (parts : list string) : string :=
  String.concat sep parts.

End JS.

(** ** types.ts *)

Record GeoPoint := mkGeoPoint { lat : float; lng : float }.

(** [enum AreaUnit]: the members the declaration lists. *)
Inductive AreaUnit := SQ_METERS | SQ_FEET | ACRES | HECTARES.

Definition AreaUnit_name (u : AreaUnit) : string :=
  match u with
  | SQ_METERS => "SQ_METERS"
  | SQ_FEET => "SQ_FEET"
  | ACRES => "ACRES"
  | HECTARES => "HECTARES"
  end.

(** The string each member is initialised with. *)
Definition AreaUnit_value (u : AreaUnit) : string :=
  match u with
  | SQ_METERS => "m²"
  | SQ_FEET => "ft²"
  | ACRES => "acres"
  | HECTARES => "ha"
  end.

Definition AreaUnit_members : list AreaUnit := [SQ_METERS; SQ_FEET; ACRES; HECTARES].

(** A string enum is compiled to an object from member names to values
    (no reverse mapping); this is the object that [AreaUnit.X] and
    [Object.keys(AreaUnit)] are evaluated on. *)
Definition AreaUnit_object : list (string * string) :=
  map (fun u => (AreaUnit_name u, AreaUnit_value u)) AreaUnit_members.

(** [AreaUnit.name]: [None] is [undefined]. *)
Definition AreaUnit_get (name : string) : option string :=
  snd <$> find (fun kv => String.eqb kv.1 name) AreaUnit_object.

(** [Object.keys(AreaUnit)]. *)
Definition AreaUnit_keys : list string := map fst AreaUnit_object.

(** ** constants.ts *)

Definition UNIT_CONVERSIONS : gmap string float :=
  JS.object_literal
    [ (AreaUnit_get "SQ_METERS", 1%float);
      (AreaUnit_get "SQ_FEET", 10.7639%float);
      (AreaUnit_get "ACRES", 0.000247105%float);
      (AreaUnit_get "HECTARES", 0.0001%float);
      (AreaUnit_get "KANAL", 0.00197684%float);
      (AreaUnit_get "MARLA", 0.0395369%float) ].

Definition UNIT_LABELS : gmap string string :=
  JS.object_literal
    [ (AreaUnit_get "SQ_METERS", "Square Meters");
      (AreaUnit_get "SQ_FEET", "Square Feet");
      (AreaUnit_get "ACRES", "Acres");
      (AreaUnit_get "HECTARES", "Hectares");
      (AreaUnit_get "KANAL", "Kanal");
      (AreaUnit_get "MARLA", "Marla") ].

(** ** App.tsx: component state *)

(** The eight [useState] cells of [App]. [None] is [null]. *)
Record AppState := mkAppState {
  isTracking : bool;
  path : list GeoPoint;
  area : option float;
  selectedUnit : AreaUnit;
  error : option string;
  watchId : option Z;
  isGeoSupported : bool;
  currentAccuracy : option float
}.

(** The arguments of the [useState] calls. *)
Definition initialState : AppState :=
  {| isTracking := false; path := []; area := None; selectedUnit := SQ_METERS;
     error := None; watchId := None; isGeoSupported := true;
     currentAccuracy := None |}.

Definition with_isTracking (v : bool) (s : AppState) : AppState :=
  mkAppState v (path s) (area s) (selectedUnit s) (error s) (watchId s)
    (isGeoSupported s) (currentAccuracy s).
Definition with_path (v : list GeoPoint) (s : AppState) : AppState :=
  mkAppState (isTracking s) v (area s) (selectedUnit s) (error s) (watchId s)
    (isGeoSupported s) (currentAccuracy s).
Definition with_area (v : option float) (s : AppState) : AppState :=
  mkAppState (isTracking s) (path s) v (selectedUnit s) (error s) (watchId s)
    (isGeoSupported s) (currentAccuracy s).
Definition with_selectedUnit (v : AreaUnit) (s : AppState) : AppState :=
  mkAppState (isTracking s) (path s) (area s) v (error s) (watchId s)
    (isGeoSupported s) (currentAccuracy s).
Definition with_error (v : option string) (s : AppState) : AppState :=
  mkAppState (isTracking s) (path s) (area s) (selectedUnit s) v (watchId s)
    (isGeoSupported s) (currentAccuracy s).
Definition with_watchId (v : option Z) (s : AppState) : AppState :=
  mkAppState (isTracking s) (path s) (area s) (selectedUnit s) (error s) v
    (isGeoSupported s) (currentAccuracy s).
Definition with_isGeoSupported (v : bool) (s : AppState) : AppState :=
  mkAppState (isTracking s) (path s) (area s) (selectedUnit s) (error s)
    (watchId s) v (currentAccuracy s).
Definition with_currentAccuracy (v : option float) (s : AppState) : AppState :=
  mkAppState (isTracking s) (path s) (area s) (selectedUnit s) (error s)
    (watchId s) (isGeoSupported s) v.

(** ** The browser around the component *)

(** A position watch registered with [watchPosition]. Its two callbacks are
    the [handleSuccess] and [handleError] closures of the render in which
    [startTracking] ran; [watch_render] is the state they closed over. *)
Record Watch := mkWatch { watch_id : Z; watch_render : AppState }.

(** [app] is the component state with the queued updates applied;
    [geolocation] tells whether [navigator.geolocation] exists; [watches] are
    the active watches and [nextWatchId] the handle the next one receives. *)
Record World := mkWorld {
  app : AppState;
  geolocation : bool;
  watches : list Watch;
  nextWatchId : Z
}.

(** The value of an attribute set on the download link. *)
Inductive AttrValue :=
| Literal (s : string)
| ObjectURL.

(** Calls that leave the component, in the order they are made. *)
Inductive Call :=
| Call_clearWatch (id : Z)
| Call_watchPosition (enableHighAccuracy : bool) (timeout maximumAge : Z) (id : Z)
| Call_calculatePolygonArea (p : list GeoPoint)
| Call_Blob (parts : list string) (type : string)
| Call_createElement (tag : string)
| Call_createObjectURL
| Call_setAttribute (name : string) (v : AttrValue)
| Call_setStyle (property value : string)
| Call_appendChild
| Call_click
| Call_removeChild.

(** ** Handlers *)

Inductive Completion (A : Type) :=
| Normal (a : A)
| Throw (e : string).
Arguments Normal {A} a.
Arguments Throw {A} e.

(** A handler returns or throws, leaves a new world and a list of calls. The
    updates queued before a throw stay queued. *)
Definition Handler (A : Type) : Type := World → Completion A * World * list Call.

Definition ret {A} (a : A) : Handler A := fun w => (Normal a, w, []).

Definition bind {A B} (h : Handler A) (k : A → Handler B) : Handler B :=
  fun w =>
    match h w with
    | (Normal a, w1, t1) =>
        match k a w1 with
        | (c, w2, t2) => (c, w2, t1 ++ t2)
        end
    | (Throw e, w1, t1) => (Throw e, w1, t1)
    end.

Declare Scope handler_scope.
Delimit Scope handler_scope with handler.
Notation "'let*' x := h 'in' k" := (bind h (fun x => k))
  (at level 10, x name, h at level 100, k at level 200) : handler_scope.
Notation "h1 ;; h2" := (bind h1 (fun _ => h2))
  (at level 100, h2 at level 200, right associativity) : handler_scope.

Definition skip : Handler unit := ret tt.

Definition call (c : Call) : Handler unit := fun w => (Normal tt, w, [c]).

(** The world a handler leaves, and the calls it made. *)
Definition world_after {A} (h : Handler A) (w : World) : World := (h w).1.2.
Definition calls_of {A} (h : Handler A) (w : World) : list Call := (h w).2.
Definition returns {A} (h : Handler A) (w : World) : bool :=
  match (h w).1.1 with
  | Normal _ => true
  | Throw _ => false
  end.

(** A [useState] setter: the update is applied to the newest queued state. *)
Definition setState (f : AppState → AppState) : Handler unit :=
  fun w => (Normal tt, mkWorld (f (app w)) (geolocation w) (watches w) (nextWatchId w), []).

Definition setIsTracking (v : bool) := setState (with_isTracking v).
Definition setPath (f : list GeoPoint → list GeoPoint) := setState (fun s => with_path (f (path s)) s).
Definition setArea (v : option float) := setState (with_area v).
Definition setSelectedUnit (v : AreaUnit) := setState (with_selectedUnit v).
Definition setError (v : option string) := setState (with_error v).
Definition setWatchId (v : option Z) := setState (with_watchId v).
Definition setIsGeoSupported (v : bool) := setState (with_isGeoSupported v).
Definition setCurrentAccuracy (v : option float) := setState (with_currentAccuracy v).

(** Reading [navigator.geolocation.m]: a [TypeError] when the object is absent. *)
Definition navigator_geolocation : Handler unit :=
  fun w =>
    if geolocation w then (Normal tt, w, [])
    else (Throw "TypeError: navigator.geolocation is undefined", w, []).

(** [navigator.geolocation.clearWatch(id)]. *)
Definition clearWatch (id : Z) : Handler unit :=
  (navigator_geolocation ;;
   fun w =>
     (Normal tt,
      mkWorld (app w) (geolocation w)
        (filter (fun x => watch_id x ≠ id) (watches w)) (nextWatchId w),
      [Call_clearWatch id]))%handler.

(** [navigator.geolocation.watchPosition(handleSuccess, handleError, options)]
    called in the render with state [r]; the handle is fresh. *)
Definition watchPosition (r : AppState) (enableHighAccuracy : bool)
    (timeout maximumAge : Z) : Handler Z :=
  (navigator_geolocation ;;
   fun w =>
     let id := nextWatchId w in
     (Normal id,
      mkWorld (app w) (geolocation w) (watches w ++ [mkWatch id r]) (id + 1),
      [Call_watchPosition enableHighAccuracy timeout maximumAge id]))%handler.

(** The two separators of the export: [","] and the line feed. *)
Definition comma : ascii := ","%char.
Definition linefeed : ascii := Ascii.ascii_of_nat 10.

(** ** App.tsx: the component's functions *)

Section App.

(** [calculatePolygonArea] is imported from [./services/areaCalculator];
    the component only calls it. *)
Variable calculatePolygonArea : list GeoPoint → float.

(** The string a number becomes in a template literal (the language's
    [Number::toString]). *)
Variable Number_toString : float → string.

Local Open Scope handler_scope.

(** The effect that runs once after the first render. *)
Definition geolocationCheck : Handler unit :=
  fun w =>
    (if negb (geolocation w) then
       setIsGeoSupported false ;;
       setError (Some "Geolocation is not supported by your browser. This app cannot function without it.")
     else skip) w.

(** [handleSuccess] of the render with state [r], called with
    [position.coords]. *)
Definition handleSuccess (r : AppState) (latitude longitude accuracy : float) : Handler unit :=
  setPath (fun prevPath => prevPath ++ [{| lat := latitude; lng := longitude |}]) ;;
  setCurrentAccuracy (Some accuracy) ;;
  if JS.truthy (error r) then setError None else skip.

Definition errorMessage (code : Z) (message : string) : string :=
  if decide (code = 1)%Z then
    "Location permission denied. Please enable it in your browser/system settings."
  else if decide (code = 2)%Z then
    "Location data is unavailable. Please move to an open area with a clear view of the sky."
  else if decide (code = 3)%Z then
    "Could not get location in time. Please check your network or GPS signal."
  else
    "An unknown location error occurred: " +:+ message.

(** [handleError] of the render with state [r], called with [err.code] and
    [err.message]. *)
Definition handleError (r : AppState) (code : Z) (message : string) : Handler unit :=
  setIsTracking false ;;
  match watchId r with
  | Some id => clearWatch id ;; setWatchId None
  | None => skip
  end ;;
  setError (Some (errorMessage code message)).

Definition startTracking (r : AppState) : Handler unit :=
  if negb (isGeoSupported r) then skip
  else
    setError None ;;
    setPath (fun _ => []) ;;
    setArea None ;;
    setCurrentAccuracy None ;;
    setIsTracking true ;;
    let* id := watchPosition r true 10000 0 in
    setWatchId (Some id).

Definition notEnoughPoints : string :=
  "Not enough points to form a shape. Please record at least 3 points by walking the perimeter.".

Definition stopTracking (r : AppState) : Handler unit :=
  match watchId r with
  | Some id => clearWatch id ;; setWatchId None
  | None => skip
  end ;;
  setIsTracking false ;;
  setCurrentAccuracy None ;;
  if decide (2 < length (path r))%nat then
    call (Call_calculatePolygonArea (path r)) ;;
    let calculatedArea := calculatePolygonArea (path r) in
    setArea (Some calculatedArea)
  else
    setArea None ;;
    if decide (0 < length (path r))%nat then setError (Some notEnoughPoints)
    else skip.

Definition handleToggleTracking (r : AppState) : Handler unit :=
  if isTracking r then stopTracking r else startTracking r.

(** The cleanup of the effect with dependency [watchId]: it runs when a
    render commits a [watchId] that differs from the one of the render it
    was created in, whose state is [r]. *)
Definition watchCleanup (r : AppState) : Handler unit :=
  fun w =>
    (if decide (watchId (app w) = watchId r) then skip
     else match watchId r with
          | Some id => clearWatch id
          | None => skip
          end) w.

(** The row of a point in the export. *)
Definition csvRow (p : GeoPoint) : string :=
  Number_toString (lat p) +:+ "," +:+ Number_toString (lng p).

Definition newline : string := String linefeed "".

Definition csvHeader : string := "Latitude,Longitude" +:+ newline.

Definition exportToCSV (r : AppState) : Handler unit :=
  if decide (length (path r) = 0)%nat then skip
  else
    let header := csvHeader in
    let csvContent := JS.join newline (map csvRow (path r)) in
    call (Call_Blob [header +:+ csvContent] "text/csv;charset=utf-8;") ;;
    call (Call_createElement "a") ;;
    call Call_createObjectURL ;;
    call (Call_setAttribute "href" ObjectURL) ;;
    call (Call_setAttribute "download" (Literal "walk_path.csv")) ;;
    call (Call_setStyle "visibility" "hidden") ;;
    call Call_appendChild ;;
    call Call_click ;;
    call Call_removeChild.

(** [convertedArea], as computed in the render with state [r]. *)
Definition convertedArea (r : AppState) : float :=
  match area r with
  | None => 0%float
  | Some a => (a * JS.ToNumber (UNIT_CONVERSIONS !! AreaUnit_value (selectedUnit r)))%float
  end.

(** The label shown under the result, [UNIT_LABELS[selectedUnit]]. *)
Definition unitLabel (r : AppState) : option string :=
  UNIT_LABELS !! AreaUnit_value (selectedUnit r).

(** ** Events *)

(** What can happen to the mounted component: a click on the start/stop
    button, on a unit button or on the export button, and a callback of an
    active watch. *)
Inductive Event :=
| ClickToggle
| ClickUnit (u : AreaUnit)
| ClickExport
| Position (id : Z) (latitude longitude accuracy : float)
| PositionError (id : Z) (code : Z) (message : string).

Definition find_watch (id : Z) (w : World) : option Watch :=
  find (fun x => bool_decide (watch_id x = id)) (watches w).

(** The handler an event runs. A click runs the handler of the current
    render; a watch callback runs the closure registered with the watch,
    and a watch that is not active calls nothing. *)
Definition handler_of (ev : Event) : Handler unit :=
  fun w =>
    match ev with
    | ClickToggle => handleToggleTracking (app w) w
    | ClickUnit u => setSelectedUnit u w
    | ClickExport => exportToCSV (app w) w
    | Position id la lo acc =>
        match find_watch id w with
        | Some x => handleSuccess (watch_render x) la lo acc w
        | None => skip w
        end
    | PositionError id code msg =>
        match find_watch id w with
        | Some x => handleError (watch_render x) code msg w
        | None => skip w
        end
    end.

(** One event: its handler runs against the committed state, the queued
    updates are committed, then the effect cleanup runs. *)
Definition dispatch (ev : Event) (w : World) : World :=
  world_after (watchCleanup (app w)) (world_after (handler_of ev) w).

(** The world after the first render and its effect. *)
Definition mount (geo : bool) : World :=
  world_after geolocationCheck (mkWorld initialState geo [] 1).

Inductive reachable : World → Prop :=
| reachable_mount geo : reachable (mount geo)
| reachable_dispatch ev w : reachable w → reachable (dispatch ev w).

Definition run (evs : list Event) (w : World) : World :=
  fold_left (fun w ev => dispatch ev w) evs w.

End App.

(** ** Properties of the mounted component *)

(** What holds of every world the component can be in: [isGeoSupported]
    mirrors the presence of [navigator.geolocation], and without it nothing
    was ever recorded or registered. *)
Definition consistent (w : World) : Prop :=
  isGeoSupported (app w) = geolocation w ∧
  (geolocation w = false →
   path (app w) = [] ∧ area (app w) = None ∧ watchId (app w) = None ∧ watches w = []).

Definition is_calculatePolygonArea (c : Call) : bool :=
  match c with
  | Call_calculatePolygonArea _ => true
  | _ => false
  end.

Ltac unfold_handlers :=
  unfold dispatch, handler_of, handleToggleTracking, stopTracking, startTracking,
    handleSuccess, handleError, exportToCSV, watchCleanup, geolocationCheck,
    watchPosition, clearWatch, navigator_geolocation,
    setIsTracking, setPath, setArea, setSelectedUnit, setError, setWatchId,
    setIsGeoSupported, setCurrentAccuracy, setState, call, skip, bind, ret,
    world_after, calls_of, returns in *.

Ltac run_handlers :=
  unfold_handlers; cbn [fst snd app geolocation watches nextWatchId
    isTracking path area selectedUnit error watchId isGeoSupported currentAccuracy
    with_isTracking with_path with_area with_selectedUnit with_error with_watchId
    with_isGeoSupported with_currentAccuracy negb] in *.

(** Case analysis on an innermost [match] of the goal. *)
Ltac inner_case :=
  match goal with
  | |- context [ match ?x with _ => _ end ] =>
      lazymatch x with
      | context [ match _ with _ => _ end ] => fail
      | _ => destruct x eqn:?
      end
  end.

Ltac step_handlers :=
  run_handlers; repeat (inner_case; simplify_eq/=).

(** ** Reading the export back

    The reader a consumer of the exported file applies: lines are separated
    by the line feed, the first one is the header, and every other line holds
    two fields separated by a comma. [parse] reads one number. *)

Fixpoint split_on (sep : ascii) (s : string) : list string :=
  match s with
  | EmptyString => [EmptyString]
  | String c s' =>
      if Ascii.eqb c sep then EmptyString :: split_on sep s'
      else match split_on sep s' with
           | hd :: tl => String c hd :: tl
           | [] => [String c EmptyString]
           end
  end.

(** [sep] does not occur in [s]. *)
Fixpoint free_of (sep : ascii) (s : string) : bool :=
  match s with
  | EmptyString => true
  | String c s' => negb (Ascii.eqb c sep) && free_of sep s'
  end.

Definition readRow (parse : string → option float) (row : string) : option GeoPoint :=
  match split_on comma row with
  | [a; b] =>
      match parse a, parse b with
      | Some la, Some lo => Some {| lat := la; lng := lo |}
      | _, _ => None
      end
  | _ => None
  end.

Definition readCSV (parse : string → option float) (text : string) : option (list GeoPoint) :=
  match split_on linefeed text with
  | hd :: rows =>
      if String.eqb hd "Latitude,Longitude" then mapM (readRow parse) rows else None
  | [] => None
  end.

(** ** The language's conversions between numbers and text

    [Number::toString] with radix 10, which a template literal applies to a
    number, and [StringToNumber], which [Number(text)] applies to a string,
    after ECMA-262, on binary64 numbers. A string is a sequence of code
    units below 256, which is all the exported text holds. *)

Module ECMAScript.

Local Open Scope Z_scope.

(** The binary64 number nearest to [s * 10^t] (ties to even), for [s >= 0]. *)
Definition binary64 (s t : Z) : spec_float :=
  match s with
  | Z.pos p =>
      if (0 <=? t)%Z then binary_normalize 53 1024 (s * 10 ^ t) 0 false
      else SFdiv 53 1024 (S754_finite false p 0)
             (S754_finite false (Z.to_pos (10 ^ (- t))) 0)
  | _ => S754_zero false
  end.

Definition same_finite (a b : spec_float) : bool :=
  match a, b with
  | S754_finite sa ma ea, S754_finite sb mb eb =>
      Bool.eqb sa sb && Pos.eqb ma mb && Z.eqb ea eb
  | _, _ => false
  end.

(** The integer [s], if any, such that [s * 10^t] becomes the number
    [m * 2^e]; of two, the one nearer to it. They are among the two
    multiples of [10^t] around [m * 2^e]. *)
Definition digits_at (m : positive) (e t : Z) : option Z :=
  let num := (Z.pos m * 2 ^ Z.max e 0 * 10 ^ Z.max (- t) 0)%Z in
  let den := (2 ^ Z.max (- e) 0 * 10 ^ Z.max t 0)%Z in
  let q := (num / den)%Z in
  let r := (num mod den)%Z in
  let x := S754_finite false m e in
  match same_finite (binary64 q t) x, same_finite (binary64 (q + 1) t) x with
  | true, true =>
      match (2 * r ?= den)%Z with
      | Lt => Some q
      | Gt => Some (q + 1)%Z
      | Eq => Some (if Z.even q then q else q + 1)%Z
      end
  | true, false => Some q
  | false, true => Some (q + 1)%Z
  | false, false => None
  end.

(** The fewest digits: the first [t], from [t] downwards, at which there is
    such an [s]. *)
Fixpoint shortest (fuel : nat) (m : positive) (e t : Z) : option (Z * Z) :=
  match digits_at m e t with
  | Some s => Some (s, t)
  | None =>
      match fuel with
      | O => None
      | S fuel' => shortest fuel' m e (t - 1)
      end
  end.

(** Where the search starts: [m * 2^e] is below [10^(first_scale m e)]. *)
Definition first_scale (m : positive) (e : Z) : Z :=
  (Z.log2 (Z.pos m) + 1 + e) * 30103 / 100000 + 2.

(** A mantissa and exponent as binary64 holds them. At [Z.min e 0] the
    number [m * 2^e] is a multiple of the power of ten, where the search
    ends at the latest. *)
Definition canonical (m : positive) (e : Z) : Prop :=
  fexp 53 1024 (Z.pos (digits2_pos m) + e) = e ∧ e ≤ 971.

(** The decimal digits of a positive integer. *)
Definition digits (s : Z) : list ascii := String.list_ascii_of_string (pretty s).

Definition zeros (n : Z) : list ascii := replicate (Z.to_nat n) "0"%char.

(** Steps 6 to 11 of [Number::toString], on [s] and [n - k = t]. *)
Definition notation (s t : Z) : list ascii :=
  let ds := digits s in
  let k := Z.of_nat (length ds) in
  let n := t + k in
  if (-5 <=? n) && (n <=? 21) then
    if k <=? n then ds ++ zeros (n - k)
    else if 0 <? n then take (Z.to_nat n) ds ++ "."%char :: drop (Z.to_nat n) ds
    else "0"%char :: "."%char :: zeros (- n) ++ ds
  else
    let exponentSign := if n <? 0 then "-"%char else "+"%char in
    if k =? 1 then ds ++ "e"%char :: exponentSign :: digits (Z.abs (n - 1))
    else take 1 ds ++ "."%char :: drop 1 ds ++
         "e"%char :: exponentSign :: digits (Z.abs (n - 1)).

(** [Number::toString(x, 10)]. The search finds digits for every number
    ([Number_toString_finite] below), so that its last case never arises. *)
Definition Number_toString (x : float) : string :=
  match Prim2SF x with
  | S754_nan => "NaN"
  | S754_zero _ => "0"
  | S754_infinity sg => if sg then "-Infinity" else "Infinity"
  | S754_finite sg m e =>
      match shortest (Z.to_nat (first_scale m e - Z.min e 0)) m e (first_scale m e) with
      | Some (s, t) =>
          String.string_of_list_ascii ((if sg then ["-"%char] else []) ++ notation s t)
      | None => "NaN"
      end
  end.

(** *** Reading a number: the grammar [StringNumericLiteral] *)

(** [DecimalDigit] and its value. *)
Definition decimal (c : ascii) : bool :=
  (48 <=? Z.of_N (N_of_ascii c)) && (Z.of_N (N_of_ascii c) <=? 57).

Definition digit (c : ascii) : option Z :=
  if decimal c then Some (Z.of_N (N_of_ascii c) - 48) else None.

Fixpoint value_from (acc : Z) (l : list ascii) : option Z :=
  match l with
  | [] => Some acc
  | c :: l' =>
      match digit c with
      | Some d => value_from (10 * acc + d) l'
      | None => None
      end
  end.

(** [DecimalDigits]: one digit at least. *)
Definition natural (l : list ascii) : option Z :=
  match l with
  | [] => None
  | _ => value_from 0 l
  end.

(** [SignedInteger]. *)
Definition integer (l : list ascii) : option Z :=
  match l with
  | "+"%char :: l' => natural l'
  | "-"%char :: l' => Z.opp <$> natural l'
  | _ => natural l
  end.

(** [l] up to its first character in [P], and what follows that character. *)
Fixpoint break (P : ascii → bool) (l : list ascii) : list ascii * option (list ascii) :=
  match l with
  | [] => ([], None)
  | c :: l' =>
      if P c then ([], Some l')
      else let '(a, b) := break P l' in (c :: a, b)
  end.

(** [ExponentIndicator]. *)
Definition is_exponent (c : ascii) : bool := Ascii.eqb c "e" || Ascii.eqb c "E".

Definition is_dot (c : ascii) : bool := Ascii.eqb c ".".

(** The number which [digits], [digits.], [digits.digits] or [.digits],
    times [10^ex], rounds to. The whole literal is rounded, as engines do;
    past 20 significant digits the standard also allows rounding what the
    first 20 denote. *)
Definition mantissa (l : list ascii) (ex : Z) : option spec_float :=
  match break is_dot l with
  | (i, None) => (fun v => binary64 v ex) <$> natural i
  | (i, Some f) =>
      if bool_decide (i = [] ∧ f = []) then None
      else (fun v => binary64 v (ex - Z.of_nat (length f))) <$> value_from 0 (i ++ f)
  end.

(** [StrUnsignedDecimalLiteral]: [Infinity], or a mantissa and an optional
    [ExponentPart]. *)
Definition unsigned (l : list ascii) : option spec_float :=
  if bool_decide (l = String.list_ascii_of_string "Infinity") then Some (S754_infinity false)
  else
    match break is_exponent l with
    | (m, None) => mantissa m 0
    | (m, Some x) =>
        match integer x with
        | Some ex => mantissa m ex
        | None => None
        end
    end.

(** [StrDecimalLiteral]. *)
Definition literal (l : list ascii) : option spec_float :=
  match l with
  | "+"%char :: l' => unsigned l'
  | "-"%char :: l' => SFopp <$> unsigned l'
  | _ => unsigned l
  end.

(** [StrWhiteSpaceChar]: the white space and line terminators below 256. *)
Definition white_space (c : ascii) : bool :=
  let n := N_of_ascii c in
  ((9 <=? n) && (n <=? 13) || (n =? 32) || (n =? 160))%N.

Fixpoint skip_space (l : list ascii) : list ascii :=
  match l with
  | [] => []
  | c :: l' => if white_space c then skip_space l' else l
  end.

Definition trim (l : list ascii) : list ascii :=
  reverse (skip_space (reverse (skip_space l))).

(** [HexDigit], [OctalDigit] or [BinaryDigit] and its value. *)
Definition radix_digit (base : Z) (c : ascii) : option Z :=
  let n := Z.of_N (N_of_ascii c) in
  let v := if (48 <=? n) && (n <=? 57) then Some (n - 48)
           else if (97 <=? n) && (n <=? 102) then Some (n - 87)
           else if (65 <=? n) && (n <=? 70) then Some (n - 55)
           else None in
  match v with
  | Some d => if d <? base then Some d else None
  | None => None
  end.

Fixpoint radix_from (base acc : Z) (l : list ascii) : option Z :=
  match l with
  | [] => Some acc
  | c :: l' =>
      match radix_digit base c with
      | Some d => radix_from base (base * acc + d) l'
      | None => None
      end
  end.

Definition radix_of (c : ascii) : option Z :=
  if Ascii.eqb c "x" || Ascii.eqb c "X" then Some 16
  else if Ascii.eqb c "o" || Ascii.eqb c "O" then Some 8
  else if Ascii.eqb c "b" || Ascii.eqb c "B" then Some 2
  else None.

(** [StrNumericLiteral]: a [NonDecimalIntegerLiteral], which has no sign, or
    a [StrDecimalLiteral]. *)
Definition numeric (l : list ascii) : option spec_float :=
  match l with
  | "0"%char :: c :: r =>
      match radix_of c with
      | Some base =>
          match r with
          | [] => None
          | _ => (fun v => binary_normalize 53 1024 v 0 false) <$> radix_from base 0 r
          end
      | None => literal l
      end
  | _ => literal l
  end.

(** [StringToNumber]: white space around the literal is dropped, nothing
    but white space is zero, and what is no literal is [NaN]. *)
Definition StringToNumber (s : string) : float :=
  match trim (String.list_ascii_of_string s) with
  | [] => 0%float
  | l =>
      match numeric l with
      | Some v => SF2Prim v
      | None => nan
      end
  end.

(** The characters [Number::toString] writes for a finite number. *)
Definition plain (c : ascii) : bool :=
  decimal c || Ascii.eqb c "." || Ascii.eqb c "e" || Ascii.eqb c "+" || Ascii.eqb c "-".

End ECMAScript.

(** ** Exact values of numbers *)

(** The rational a finite binary64 number stands for. *)
Definition exact (x : float) : option Q :=
  match Prim2SF x with
  | S754_zero _ => Some 0%Q
  | S754_finite s m e =>
      Some ((if s then -1 else 1) * inject_Z (Z.pos m) * Qpower 2 e)%Q
  | _ => None
  end.

(** What the text of a number reads back as: the number itself, but for
    the negative zero, which is written as zero. *)
Definition drop_zero_sign (x : float) : float :=
  match Prim2SF x with
  | S754_zero _ => 0%float
  | _ => x
  end.

Definition read_back (p : GeoPoint) : GeoPoint :=
  {| lat := drop_zero_sign (lat p); lng := drop_zero_sign (lng p) |}.

(** ** Sample walks

    [sampleArea] stands in for the imported [calculatePolygonArea] in the
    examples below, where any function will do. The samples are worlds the
    component reaches from its mount. *)

Definition sampleArea : list GeoPoint → float := fun _ => 12390%float.

Definition sampleRun : list Event → World :=
  fun evs => run sampleArea ECMAScript.Number_toString evs (mount true).

(** A walk just started: tracking, nothing recorded yet. *)
Definition walkStarted : World := sampleRun [ClickToggle].

(** A walk with a single fix. *)
Definition walkOnePoint : World :=
  sampleRun [ClickToggle; Position 1 33.684412345 73.047912345 4.5].

(** Four fixes around a small plot, still tracking. *)
Definition walkSquare : World :=
  sampleRun
    [ClickToggle;
     Position 1 33.684412345 73.047912345 4.5;
     Position 1 33.684412345 73.0489 5;
     Position 1 33.6853125 73.0489 3.25;
     Position 1 33.6853125 73.047912345 6].

(** The same walk, stopped: its area is computed. *)
Definition walkDone : World :=
  dispatch sampleArea ECMAScript.Number_toString ClickToggle walkSquare.

(** ** Walks as sequences of events *)

(** What the geolocation service reports in one fix: [coords.latitude],
    [coords.longitude] and [coords.accuracy]. *)
Record Fix := mkFix { latitude : float; longitude : float; accuracy : float }.

(** The point [handleSuccess] records for a fix. *)
Definition point_of (f : Fix) : GeoPoint := {| lat := latitude f; lng := longitude f |}.

Definition fixes_of (id : Z) (fs : list Fix) : list Event :=
  map (fun f => Position id (latitude f) (longitude f) (accuracy f)) fs.

(** A whole walk: a click on start, the fixes of the watch [id], a click on
    stop. *)
Definition walk (id : Z) (fs : list Fix) : list Event :=
  ClickToggle :: fixes_of id fs ++ [ClickToggle].

Definition last_accuracy (fs : list Fix) (before : option float) : option float :=
  match last fs with
  | Some f => Some (accuracy f)
  | None => before
  end.

(** ** Invariants of the watch and of the result *)

(** There is at most one active watch, and the component holds its handle;
    while tracking there is one; handles held are older than the next one. *)
Definition one_watch (w : World) : Prop :=
  (watches w = [] ∨ ∃ x, watches w = [x] ∧ watchId (app w) = Some (watch_id x)) ∧
  (isTracking (app w) = true → watches w ≠ []) ∧
  (∀ i, watchId (app w) = Some i → (i < nextWatchId w)%Z).

(** A result is the area of the path as it stands, which has three points or
    more and is no longer fed by a watch. *)
Definition result_current (calc : list GeoPoint → float) (w : World) : Prop :=
  ∀ a, area (app w) = Some a →
    a = calc (path (app w)) ∧ (2 < length (path (app w)))%nat ∧
    watches w = [] ∧ isTracking (app w) = false.

Set Warnings "-clear-no-such-hyp".

Ltac filter_watches :=
  repeat (rewrite ?filter_cons, ?filter_nil in *; cbn [watch_id] in *;
          try case_decide; simplify_eq/=).

Ltac same_handle :=
  repeat match goal with
         | H : left _ = left _ |- _ => clear H
         | H : right _ = right _ |- _ => clear H
         end;
  simplify_eq/=.

Ltac settle := same_handle; try done; try lia; try naive_solver lia.

Ltac unfold_dispatch := unfold dispatch, handler_of, world_after.

(** Three fixes, and a browser without geolocation after two clicks. *)
Definition sampleFixes : list Fix :=
  [ {| latitude := 33.684412345; longitude := 73.047912345; accuracy := 4.5 |};
    {| latitude := 33.684412345; longitude := 73.0489; accuracy := 5 |};
    {| latitude := 33.6853125; longitude := 73.0489; accuracy := 3.25 |} ]%float.

Definition unsupported : World :=
  run sampleArea ECMAScript.Number_toString [ClickToggle; ClickUnit ACRES] (mount false).

Section Properties.

Context (calculatePolygonArea : list GeoPoint → float).
Context (Number_toString : float → string).

Local Abbreviation reachable := (reachable calculatePolygonArea Number_toString).
Local Abbreviation dispatch := (dispatch calculatePolygonArea Number_toString).
Local Abbreviation stopTracking := (stopTracking calculatePolygonArea).
Local Abbreviation exportToCSV := (exportToCSV Number_toString).

Lemma mount_consistent geo : consistent (mount geo).
Proof. destruct geo; split; try done. Qed.

Lemma find_watch_Some id w x :
  find_watch id w = Some x → consistent w → geolocation w = true.
Proof.
  intros Hf [_ Hc]. destruct (geolocation w) eqn:Hg; [done|].
  destruct (Hc eq_refl) as (_ & _ & _ & Hw).
  unfold find_watch in Hf. rewrite Hw in Hf. discriminate.
Qed.

Lemma dispatch_consistent ev w : consistent w → consistent (dispatch ev w).
Proof.
  intros Hc. pose proof Hc as [Hs Hg].
  destruct w as [[tr pa ar un er wi gs ac] geo ws nx]; simpl in *. subst gs.
  destruct geo.
  - clear Hg. destruct ev; step_handlers; split; done.
  - destruct (Hg eq_refl) as (-> & -> & -> & ->).
    destruct ev; step_handlers; split; done.
Qed.

Lemma reachable_consistent w : reachable w → consistent w.
Proof.
  induction 1 as [geo | ev w _ IH].
  - apply mount_consistent.
  - by apply dispatch_consistent.
Qed.

Lemma reachable_run evs w : reachable w → reachable (run calculatePolygonArea Number_toString evs w).
Proof.
  revert w. induction evs as [|ev evs IH]; intros w Hw; simpl; [done|].
  apply IH. by constructor.
Qed.

(** *** Splitting text at a separator *)

Lemma split_on_free sep s : free_of sep s = true → split_on sep s = [s].
Proof.
  induction s as [|c s IH]; simpl; [done|].
  intros [Hc Hs]%andb_prop. apply negb_true_iff in Hc. rewrite Hc.
  by rewrite (IH Hs).
Qed.

Lemma split_on_app sep a b :
  free_of sep a = true → split_on sep (a +:+ String sep b) = a :: split_on sep b.
Proof.
  induction a as [|c a IH]; simpl.
  - intros _. by rewrite Ascii.eqb_refl.
  - intros [Hc Ha]%andb_prop. apply negb_true_iff in Hc. rewrite Hc.
    by rewrite (IH Ha).
Qed.

Lemma free_of_app sep a b :
  free_of sep (a +:+ b) = free_of sep a && free_of sep b.
Proof.
  induction a as [|c a IH]; simpl; [done|]. by rewrite IH, andb_assoc.
Qed.

Lemma split_on_join sep rows :
  rows ≠ [] → Forall (fun row => free_of sep row = true) rows →
  split_on sep (JS.join (String sep "") rows) = rows.
Proof.
  intros Hne Hfree. induction Hfree as [|row rows Hrow Hrows IH]; [done|].
  destruct rows as [|row' rows].
  - by apply split_on_free.
  - change (JS.join (String sep "") (row :: row' :: rows))
      with (row +:+ String sep (JS.join (String sep "") (row' :: rows))).
    rewrite split_on_app by done. f_equal. by apply IH.
Qed.

(** *** Rows of the export *)

Lemma csvRow_fields p :
  free_of comma (Number_toString (lat p)) = true →
  split_on comma (csvRow Number_toString p) =
    Number_toString (lat p) :: split_on comma (Number_toString (lng p)).
Proof.
  intros Hlat.
  change (csvRow Number_toString p)
    with (Number_toString (lat p) +:+ String comma (Number_toString (lng p))).
  by rewrite split_on_app.
Qed.

Lemma csvRow_one_line p :
  free_of linefeed (Number_toString (lat p)) = true →
  free_of linefeed (Number_toString (lng p)) = true →
  free_of linefeed (csvRow Number_toString p) = true.
Proof.
  intros Hlat Hlng. unfold csvRow. rewrite !free_of_app, Hlat, Hlng. reflexivity.
Qed.

Lemma readRow_csvRow parse g p :
  (∀ x, free_of comma (Number_toString x) = true) →
  (∀ x, parse (Number_toString x) = Some (g x)) →
  split_on comma (csvRow Number_toString p) =
    [Number_toString (lat p); Number_toString (lng p)] ∧
  readRow parse (csvRow Number_toString p) =
    Some {| lat := g (lat p); lng := g (lng p) |}.
Proof.
  intros Hfree Hparse.
  assert (split_on comma (csvRow Number_toString p) =
          [Number_toString (lat p); Number_toString (lng p)]) as Hsplit.
  { rewrite csvRow_fields by done. by rewrite split_on_free. }
  split; [done|]. unfold readRow. by rewrite Hsplit, !Hparse.
Qed.

(** *** Stopping a walk *)

(** What [stopTracking] does with a path of at most two points, in any world
    the component can be in. *)
Lemma stopTracking_short w :
  reachable w → (length (path (app w)) < 3)%nat →
  returns (stopTracking (app w)) w = true ∧
  Forall (fun c => is_calculatePolygonArea c = false) (calls_of (stopTracking (app w)) w) ∧
  area (app (world_after (stopTracking (app w)) w)) = None ∧
  error (app (world_after (stopTracking (app w)) w)) =
    if decide (0 < length (path (app w)))%nat then Some notEnoughPoints
    else error (app w).
Proof.
  intros Hr Hlen. apply reachable_consistent in Hr as [Hs Hg].
  destruct w as [[tr pa ar un er wi gs ac] geo ws nx]; simpl in *. subst gs.
  destruct geo.
  - clear Hg. destruct wi as [i|]; step_handlers;
      repeat split; try done; try lia; repeat constructor.
  - destruct (Hg eq_refl) as (-> & -> & -> & ->).
    step_handlers; repeat split; try done; repeat constructor.
Qed.

(** C1 (as amended): for every finalized path with fewer than 3 points,
    [stopTracking] returns without calling [calculatePolygonArea] and leaves
    the area result [null]; it sets the not-enough-points message when the
    path holds 1 or 2 points, and leaves the error as it was when the path
    is empty. *)
Theorem stopTracking_insufficient_points w :
  reachable w → (length (path (app w)) < 3)%nat →
  returns (stopTracking (app w)) w = true ∧
  Forall (fun c => is_calculatePolygonArea c = false) (calls_of (stopTracking (app w)) w) ∧
  area (app (world_after (stopTracking (app w)) w)) = None ∧
  ((0 < length (path (app w)))%nat →
   error (app (world_after (stopTracking (app w)) w)) = Some notEnoughPoints) ∧
  (length (path (app w)) = 0%nat →
   error (app (world_after (stopTracking (app w)) w)) = error (app w)).
Proof.
  intros Hr Hlen.
  destruct (stopTracking_short w Hr Hlen) as (Hret & Hcalls & Harea & Herr).
  repeat split; try done.
  - intros Hpos. rewrite Herr. by rewrite decide_True.
  - intros Hz. rewrite Herr. rewrite decide_False; [done | lia].
Qed.

(** X13: with three points or more, [stopTracking] returns, hands the path,
    as recorded, to [calculatePolygonArea], once, stores what it returns as
    the area, and leaves the path as it is. *)
Lemma stopTracking_computes_area w :
  reachable w → (2 < length (path (app w)))%nat →
  returns (stopTracking (app w)) w = true ∧
  filter (fun c => is_calculatePolygonArea c = true) (calls_of (stopTracking (app w)) w)
    = [Call_calculatePolygonArea (path (app w))] ∧
  area (app (world_after (stopTracking (app w)) w))
    = Some (calculatePolygonArea (path (app w))) ∧
  path (app (world_after (stopTracking (app w)) w)) = path (app w).
Proof.
  intros Hr Hlen. apply reachable_consistent in Hr as [Hs Hg].
  destruct w as [[tr pa ar un er wi gs ac] geo ws nx]; simpl in *. subst gs.
  destruct geo.
  - clear Hg. destruct wi as [i|]; step_handlers; try lia; repeat split; done.
  - destruct (Hg eq_refl) as (-> & -> & -> & ->). simpl in Hlen. lia.
Qed.

(** What [stopTracking] does to the error message, whatever the path. *)
Lemma stopTracking_error w :
  reachable w →
  error (app (world_after (stopTracking (app w)) w)) =
    if decide (1 ≤ length (path (app w)) ≤ 2)%nat then Some notEnoughPoints
    else error (app w).
Proof.
  intros Hr. pose proof (reachable_consistent w Hr) as [Hs Hg].
  destruct (decide (length (path (app w)) < 3)%nat) as [Hlt | Hge].
  - destruct (stopTracking_short w Hr Hlt) as (_ & _ & _ & ->).
    repeat case_decide; try done; lia.
  - rewrite decide_False by lia.
    destruct w as [[tr pa ar un er wi gs ac] geo ws nx]; simpl in *. subst gs.
    destruct geo.
    + clear Hg. destruct wi as [i|]; step_handlers; try done; lia.
    + destruct (Hg eq_refl) as (-> & -> & -> & ->). simpl in Hge. lia.
Qed.

(** C9: stopping with an empty path sets no error message (the error is the
    one there was) and no area result; the not-enough-points message is set
    exactly when the path holds 1 or 2 points. *)
Theorem stopTracking_empty_path w :
  reachable w →
  (path (app w) = [] →
   error (app (world_after (stopTracking (app w)) w)) = error (app w) ∧
   area (app (world_after (stopTracking (app w)) w)) = None) ∧
  error (app (world_after (stopTracking (app w)) w)) =
    (if decide (1 ≤ length (path (app w)) ≤ 2)%nat then Some notEnoughPoints
     else error (app w)).
Proof.
  intros Hr. split; [|by apply stopTracking_error].
  intros Hnil.
  assert (length (path (app w)) < 3)%nat as Hlt by (rewrite Hnil; simpl; lia).
  destruct (stopTracking_short w Hr Hlt) as (_ & _ & -> & ->).
  rewrite Hnil. done.
Qed.

(** *** Starting a walk *)

(** The state [startTracking] leaves: nothing changes without geolocation
    support; otherwise error, path, area, accuracy and tracking status are
    reset, and the watch handle is stored if the watch could be registered. *)
Lemma startTracking_state w :
  app (world_after (startTracking (app w)) w) =
    if isGeoSupported (app w) then
      {| isTracking := true; path := []; area := None;
         selectedUnit := selectedUnit (app w); error := None;
         watchId := if geolocation w then Some (nextWatchId w) else watchId (app w);
         isGeoSupported := true; currentAccuracy := None |}
    else app w.
Proof.
  destruct w as [[tr pa ar un er wi gs ac] geo ws nx].
  destruct gs, geo; reflexivity.
Qed.

(** C6: in every world the component can be in, [startTracking] leaves the
    path empty and the area result [null]. *)
Theorem startTracking_clears_walk w :
  reachable w →
  path (app (world_after (startTracking (app w)) w)) = [] ∧
  area (app (world_after (startTracking (app w)) w)) = None.
Proof.
  intros Hr. apply reachable_consistent in Hr as [Hs Hg].
  rewrite startTracking_state.
  destruct (isGeoSupported (app w)) eqn:Hsup; [done|].
  destruct (Hg (eq_sym Hs)) as (-> & -> & _). done.
Qed.

(** C8: [startTracking] leaves the selected unit (and [isGeoSupported]) as
    they were; when it starts a walk, the state it leaves differs from the one
    before in path, area, error, accuracy and tracking status, which are
    reset, and in the watch handle, which is the new one. *)
Theorem startTracking_keeps_selectedUnit w :
  selectedUnit (app (world_after (startTracking (app w)) w)) = selectedUnit (app w) ∧
  isGeoSupported (app (world_after (startTracking (app w)) w)) = isGeoSupported (app w) ∧
  app (world_after (startTracking (app w)) w) =
    (if isGeoSupported (app w) then
       with_watchId (if geolocation w then Some (nextWatchId w) else watchId (app w))
         (with_isTracking true (with_currentAccuracy None (with_area None
           (with_path [] (with_error None (app w))))))
     else app w).
Proof.
  rewrite startTracking_state.
  destruct w as [[tr pa ar un er wi gs ac] geo ws nx]; simpl.
  destruct gs; done.
Qed.

(** *** Exporting the path *)

(** C10: with an empty path [exportToCSV] returns at once: it makes no call
    and leaves the world as it is. *)
Theorem exportToCSV_empty_path r w :
  path r = [] → exportToCSV r w = (Normal tt, w, []).
Proof. intros Hnil. run_handlers. rewrite Hnil. reflexivity. Qed.

(** What [exportToCSV] does with a non-empty path: the calls it makes, in
    order; it leaves the world as it is. *)
Lemma exportToCSV_calls r w :
  path r ≠ [] →
  exportToCSV r w =
    (Normal tt, w,
     [Call_Blob [csvHeader +:+ JS.join newline (map (csvRow Number_toString) (path r))]
        "text/csv;charset=utf-8;";
      Call_createElement "a";
      Call_createObjectURL;
      Call_setAttribute "href" ObjectURL;
      Call_setAttribute "download" (Literal "walk_path.csv");
      Call_setStyle "visibility" "hidden";
      Call_appendChild;
      Call_click;
      Call_removeChild]).
Proof.
  intros Hne. run_handlers. destruct (path r) as [|p ps] eqn:Hp; [done|]. reflexivity.
Qed.

(** The lines of the exported text, when no number is written with a line
    feed in it. *)
Lemma export_lines ps :
  (∀ x, free_of linefeed (Number_toString x) = true) →
  ps ≠ [] →
  split_on linefeed (csvHeader +:+ JS.join newline (map (csvRow Number_toString) ps)) =
    "Latitude,Longitude" :: map (csvRow Number_toString) ps.
Proof.
  intros Hfree Hne.
  change (csvHeader +:+ ?c) with ("Latitude,Longitude" +:+ String linefeed c).
  rewrite split_on_app by reflexivity. f_equal.
  apply split_on_join.
  - by destruct ps.
  - apply Forall_map, Forall_forall. intros p _. by apply csvRow_one_line.
Qed.

(** The exported text read back, when no number is written with a comma or
    a line feed in it and the text of [x] reads as [g x]. *)
Lemma readCSV_export parse g ps :
  (∀ x, free_of comma (Number_toString x) = true) →
  (∀ x, free_of linefeed (Number_toString x) = true) →
  (∀ x, parse (Number_toString x) = Some (g x)) →
  ps ≠ [] →
  readCSV parse (csvHeader +:+ JS.join newline (map (csvRow Number_toString) ps)) =
    Some (map (fun p => {| lat := g (lat p); lng := g (lng p) |}) ps).
Proof.
  intros Hcomma Hfeed Hparse Hne.
  unfold readCSV. rewrite export_lines by done. simpl.
  apply mapM_Some. apply Forall2_fmap, Forall_Forall2_diag, Forall_forall.
  intros p _. by apply (readRow_csvRow parse g).
Qed.

End Properties.

(** ** The unit table *)

(** Every member the enum declares has a value of its own, a factor and a
    label. *)
Lemma AreaUnit_value_inj u v : AreaUnit_value u = AreaUnit_value v → u = v.
Proof. destruct u, v; simpl; intros H; first [reflexivity | discriminate H]. Qed.

Lemma declared_unit_factor u :
  UNIT_CONVERSIONS !! AreaUnit_value u =
    Some (match u with
          | SQ_METERS => 1
          | SQ_FEET => 10.7639
          | ACRES => 0.000247105
          | HECTARES => 0.0001
          end)%float.
Proof. destruct u; reflexivity. Qed.

Lemma declared_unit_label u :
  UNIT_LABELS !! AreaUnit_value u =
    Some (match u with
          | SQ_METERS => "Square Meters"
          | SQ_FEET => "Square Feet"
          | ACRES => "Acres"
          | HECTARES => "Hectares"
          end).
Proof. destruct u; reflexivity. Qed.

Lemma AreaUnit_get_member u : AreaUnit_get (AreaUnit_name u) = Some (AreaUnit_value u).
Proof. destruct u; reflexivity. Qed.

(** C2: the enum declares four members, so [AreaUnit.KANAL] and
    [AreaUnit.MARLA] are [undefined]; the two table entries written for them
    fall on the one key ["undefined"], where the second replaces the first.
    Each table holds five entries: no factor and no label for kanal is left,
    and those of marla are not reachable from any unit. *)
Theorem AreaUnit_lacks_kanal_and_marla :
  AreaUnit_get "KANAL" = None ∧ AreaUnit_get "MARLA" = None ∧
  AreaUnit_keys = ["SQ_METERS"; "SQ_FEET"; "ACRES"; "HECTARES"] ∧
  (∀ k v, UNIT_CONVERSIONS !! k = Some v ↔
     (k, v) ∈ [("m²", 1); ("ft²", 10.7639); ("acres", 0.000247105);
               ("ha", 0.0001); ("undefined", 0.0395369)]%float) ∧
  (∀ k v, UNIT_LABELS !! k = Some v ↔
     (k, v) ∈ [("m²", "Square Meters"); ("ft²", "Square Feet"); ("acres", "Acres");
               ("ha", "Hectares"); ("undefined", "Marla")]) ∧
  (∀ u, UNIT_CONVERSIONS !! AreaUnit_value u ≠ Some 0.00197684%float ∧
        UNIT_CONVERSIONS !! AreaUnit_value u ≠ Some 0.0395369%float ∧
        UNIT_LABELS !! AreaUnit_value u ≠ Some "Kanal" ∧
        UNIT_LABELS !! AreaUnit_value u ≠ Some "Marla").
Proof.
  split; [reflexivity|]. split; [reflexivity|]. split; [reflexivity|].
  split; [|split].
  - intros k v. rewrite <- elem_of_map_to_list.
    replace (map_to_list UNIT_CONVERSIONS) with
      [("m²", 1); ("undefined", 0.0395369); ("acres", 0.000247105);
       ("ft²", 10.7639); ("ha", 0.0001)]%float by (vm_compute; reflexivity).
    rewrite !elem_of_cons, !elem_of_nil. tauto.
  - intros k v. rewrite <- elem_of_map_to_list.
    replace (map_to_list UNIT_LABELS) with
      [("m²", "Square Meters"); ("undefined", "Marla"); ("acres", "Acres");
       ("ft²", "Square Feet"); ("ha", "Hectares")] by (vm_compute; reflexivity).
    rewrite !elem_of_cons, !elem_of_nil. tauto.
  - intros u. rewrite declared_unit_factor, declared_unit_label.
    repeat split; intros [= H]; destruct u; try discriminate H;
      apply Leibniz.eqb_spec in H; vm_compute in H; discriminate H.
Qed.

(** ** The conversion *)

(** C3: when there is an area [x], the value shown is the binary64 product
    of [x] and the factor the table holds for the selected unit: the correctly
    rounded product, with no further rounding. *)
Theorem convertedArea_is_product r x :
  area r = Some x →
  ∃ f, UNIT_CONVERSIONS !! AreaUnit_value (selectedUnit r) = Some f ∧
       convertedArea r = (x * f)%float ∧
       Prim2SF (convertedArea r) = SF64mul (Prim2SF x) (Prim2SF f).
Proof.
  intros Ha. eexists. split; [apply declared_unit_factor|].
  unfold convertedArea. rewrite Ha, declared_unit_factor. simpl.
  split; [reflexivity | apply mul_spec].
Qed.

(** C7: an area of 1000 square meters with the unit acres: the factor read
    from the table is 0.000247105, and the value shown is the binary64 number
    0.24710500000000002, less than 10^-16 away from 0.247105. *)
Theorem convertedArea_1000_acres :
  UNIT_CONVERSIONS !! AreaUnit_value ACRES = Some 0.000247105%float ∧
  convertedArea (with_selectedUnit ACRES (with_area (Some 1000%float) initialState))
    = 0.24710500000000002%float ∧
  ∃ q, exact (convertedArea (with_selectedUnit ACRES (with_area (Some 1000%float) initialState)))
         = Some q ∧
       (Qabs (q - (247105 # 1000000)) < 1 # 10000000000000000)%Q.
Proof.
  split; [reflexivity|]. split; [vm_compute; reflexivity|].
  eexists. split; [vm_compute; reflexivity|].
  vm_compute. reflexivity.
Qed.

(** ** The conversions between numbers and text

    Every number is written without a comma or a line feed, and its text
    reads back as the number. *)

Section Conversions.

Import ECMAScript.
Local Open Scope Z_scope.

(** *** Rounding a number that binary64 holds *)

Lemma iter_pos_iter {A} (f : A → A) p x : SpecFloat.iter_pos f p x = Pos.iter f x p.
Proof.
  revert x. induction p as [p IH|p IH|]; intros x; simpl.
  - rewrite !IH. by rewrite <- !Pos.iter_swap.
  - by rewrite !IH.
  - done.
Qed.

Lemma shr_1_even p :
  shr_1 (Build_shr_record (Z.pos p~0) false false) = Build_shr_record (Z.pos p) false false.
Proof. reflexivity. Qed.

Lemma iter_shr_1 m n :
  Pos.iter shr_1 (Build_shr_record (Z.pos (Pos.iter xO m n)) false false) n
  = Build_shr_record (Z.pos m) false false.
Proof.
  induction n as [|n IH] using Pos.peano_ind.
  - reflexivity.
  - rewrite Pos.iter_succ_r. rewrite Pos.iter_succ. rewrite shr_1_even. exact IH.
Qed.

Lemma pos_iter_xO m n : Z.pos (Pos.iter xO m n) = Z.pos m * 2 ^ Z.pos n.
Proof.
  induction n as [|n IH] using Pos.peano_ind.
  - simpl. lia.
  - rewrite Pos.iter_succ, Pos2Z.inj_succ, Z.pow_succ_r by lia.
    rewrite Pos2Z.inj_xO, IH. lia.
Qed.

Lemma digits2_pos_iter_xO m n :
  Z.pos (digits2_pos (Pos.iter xO m n)) = Z.pos (digits2_pos m) + Z.pos n.
Proof.
  induction n as [|n IH] using Pos.peano_ind.
  - simpl. lia.
  - rewrite Pos.iter_succ. simpl. rewrite Pos2Z.inj_succ, IH. lia.
Qed.

Lemma digits2_pos_bounds p :
  2 ^ (Z.pos (digits2_pos p) - 1) ≤ Z.pos p < 2 ^ Z.pos (digits2_pos p).
Proof.
  induction p as [p IH|p IH|]; simpl digits2_pos.
  - rewrite Pos2Z.inj_succ, Z.pow_succ_r by lia.
    replace (Z.succ (Z.pos (digits2_pos p)) - 1) with (Z.succ (Z.pos (digits2_pos p) - 1)) by lia.
    rewrite Z.pow_succ_r by lia. lia.
  - rewrite Pos2Z.inj_succ, Z.pow_succ_r by lia.
    replace (Z.succ (Z.pos (digits2_pos p)) - 1) with (Z.succ (Z.pos (digits2_pos p) - 1)) by lia.
    rewrite Z.pow_succ_r by lia. lia.
  - simpl. lia.
Qed.

Lemma binary_round_aux_exact m e j :
  canonical m e → 0 ≤ j →
  binary_round_aux 53 1024 false (Z.pos m * 2 ^ j) (e - j) loc_Exact = S754_finite false m e.
Proof.
  intros [Hc He] Hj.
  unfold binary_round_aux.
  assert (shr_fexp 53 1024 (Z.pos m * 2 ^ j) (e - j) loc_Exact
          = (Build_shr_record (Z.pos m) false false, e)) as ->.
  { unfold shr_fexp, shr_record_of_loc.
    destruct j as [|j|j]; [| |lia].
    - rewrite Z.pow_0_r, Z.mul_1_r, Z.sub_0_r. simpl Zdigits2. rewrite Hc.
      rewrite Z.sub_diag. reflexivity.
    - rewrite <- pos_iter_xO. simpl Zdigits2. rewrite digits2_pos_iter_xO.
      replace (Z.pos (digits2_pos m) + Z.pos j + (e - Z.pos j))
        with (Z.pos (digits2_pos m) + e) by lia.
      rewrite Hc. replace (e - (e - Z.pos j)) with (Z.pos j) by lia.
      unfold shr. rewrite iter_pos_iter, iter_shr_1. f_equal. lia. }
  simpl loc_of_shr_record. simpl shr_m. simpl round_nearest_even.
  unfold shr_fexp, shr_record_of_loc. simpl Zdigits2. rewrite Hc, Z.sub_diag.
  simpl. change (1024 - 53) with 971.
  replace (e <=? 971) with true by (symmetry; apply Z.leb_le; lia). reflexivity.
Qed.

Lemma binary64_exact_nonneg m e :
  canonical m e → 0 ≤ e → binary64 (Z.pos m * 2 ^ e) 0 = S754_finite false m e.
Proof.
  intros Hc He.
  assert (∃ p, Z.pos m * 2 ^ e = Z.pos p) as [p Hp].
  { destruct e as [|n|n]; [| |lia].
    - exists m. lia.
    - exists (Pos.iter xO m n). by rewrite pos_iter_xO. }
  rewrite Hp. unfold binary64. change (0 <=? 0) with true. cbv iota.
  rewrite Z.pow_0_r, Z.mul_1_r. unfold binary_normalize, binary_round.
  assert (fexp 53 1024 (Z.pos (digits2_pos p) + 0) = e) as Hf.
  { destruct Hc as [Hc _]. destruct e as [|n|n]; [| |lia].
    - assert (p = m) as -> by lia. exact Hc.
    - assert (p = Pos.iter xO m n) as ->
        by (apply Pos2Z.inj; rewrite pos_iter_xO; lia).
      rewrite digits2_pos_iter_xO. unfold fexp in *. lia. }
  rewrite Hf. unfold shl_align.
  replace (e - 0) with e by lia.
  assert ((match e with Z.neg d => (Pos.iter xO p d, e) | _ => (p, 0) end) = (p, 0)) as ->.
  { destruct e; try done; lia. }
  replace (binary_round_aux 53 1024 false (Z.pos p) 0 loc_Exact)
    with (binary_round_aux 53 1024 false (Z.pos m * 2 ^ e) (e - e) loc_Exact)
    by (by rewrite Hp, Z.sub_diag).
  apply binary_round_aux_exact; [done | lia].
Qed.

Lemma digits2_pos_le_pow p d : Z.pos p < 2 ^ d → 0 ≤ d → Z.pos (digits2_pos p) ≤ d.
Proof.
  intros Hp Hd. pose proof (digits2_pos_bounds p) as [Hl _].
  destruct (Z_le_gt_dec (Z.pos (digits2_pos p)) d) as [|Hgt]; [done|].
  assert (2 ^ d ≤ 2 ^ (Z.pos (digits2_pos p) - 1)) by (apply Z.pow_le_mono_r; lia).
  lia.
Qed.

Lemma binary64_exact_neg m e :
  canonical m e → e < 0 → binary64 (Z.pos m * 5 ^ (- e)) e = S754_finite false m e.
Proof.
  intros Hc He. pose proof Hc as [Hfexp Hmax].
  set (k := - e). assert (0 < k) as Hk by lia.
  assert (- 1074 ≤ e) as Hmin by (unfold fexp, emin in Hfexp; lia).
  assert (Z.pos (digits2_pos m) ≤ 53) as Hdm by (unfold fexp, emin in Hfexp; lia).
  assert (0 < 5 ^ k) as H5 by (apply Z.pow_pos_nonneg; lia).
  assert (0 < 2 ^ k) as H2 by (apply Z.pow_pos_nonneg; lia).
  assert (10 ^ k = 2 ^ k * 5 ^ k) as H10 by (rewrite <- Z.pow_mul_l; reflexivity).
  assert (∃ p, Z.pos m * 5 ^ k = Z.pos p) as [p Hp].
  { exists (Z.to_pos (Z.pos m * 5 ^ k)). rewrite Z2Pos.id; [done|]. lia. }
  assert (∃ p2, 10 ^ k = Z.pos p2) as [p2 Hp2].
  { exists (Z.to_pos (10 ^ k)). rewrite Z2Pos.id; [done|]. lia. }
  rewrite Hp. unfold binary64.
  replace (0 <=? e) with false by (symmetry; apply Z.leb_gt; lia).
  fold k. rewrite Hp2. simpl Z.to_pos.
  unfold SFdiv, SFdiv_core_binary. simpl Zdigits2.
  set (d1 := Z.pos (digits2_pos p)). set (d2 := Z.pos (digits2_pos p2)).
  replace (d1 + 0 - (d2 + 0)) with (d1 - d2) by lia.
  replace (0 - 0) with 0 by lia.
  assert (d1 - d2 ≤ Z.pos (digits2_pos m) - k) as Hd.
  { pose proof (digits2_pos_bounds p) as [Hp1 _].
    pose proof (digits2_pos_bounds p2) as [_ Hp22].
    pose proof (digits2_pos_bounds m) as [_ Hm2].
    fold d1 in Hp1. fold d2 in Hp22.
    assert (2 ^ (d1 - 1) * 2 ^ k < 2 ^ Z.pos (digits2_pos m) * 2 ^ d2) as Hlt.
    { apply Z.le_lt_trans with (Z.pos p * 2 ^ k); [nia|].
      rewrite <- Hp. apply Z.lt_le_trans with (2 ^ Z.pos (digits2_pos m) * (2 ^ k * 5 ^ k)); [nia|].
      rewrite <- H10, Hp2. nia. }
    rewrite <- !Z.pow_add_r in Hlt by (unfold d1, d2; lia).
    apply Z.pow_lt_mono_r_iff in Hlt; unfold d2 in *; lia. }
  set (e' := Z.min (fexp 53 1024 (d1 - d2)) 0).
  assert (e' ≤ e) as He' by (unfold e', fexp, emin; lia).
  replace (0 - e') with (- e') by lia.
  assert (∃ s, - e' = Z.pos s) as [s Hs].
  { exists (Z.to_pos (- e')). rewrite Z2Pos.id; lia. }
  rewrite Hs. rewrite Z.shiftl_mul_pow2 by lia.
  assert (Z.pos p * 2 ^ Z.pos s = (Z.pos m * 2 ^ (Z.pos s - k)) * Z.pos p2) as Hq.
  { rewrite <- Hp, <- Hp2, H10.
    replace (2 ^ Z.pos s) with (2 ^ (Z.pos s - k) * 2 ^ k)
      by (rewrite <- Z.pow_add_r by lia; f_equal; lia).
    ring. }
  assert (Z.div_eucl (Z.pos p * 2 ^ Z.pos s) (Z.pos p2)
          = (Z.pos m * 2 ^ (Z.pos s - k), 0)) as ->.
  { pose proof (Z.div_eucl_eq (Z.pos p * 2 ^ Z.pos s) (Z.pos p2) ltac:(lia)) as Heq.
    pose proof (Z.mod_pos_bound (Z.pos p * 2 ^ Z.pos s) (Z.pos p2) ltac:(lia)) as Hb.
    unfold Z.modulo in Hb.
    destruct (Z.div_eucl (Z.pos p * 2 ^ Z.pos s) (Z.pos p2)) as [q r].
    rewrite Hq in Heq.
    assert (q = Z.pos m * 2 ^ (Z.pos s - k)) by nia. subst q.
    f_equal. lia. }
  assert (new_location (Z.pos p2) 0 = loc_Exact) as ->.
  { unfold new_location, new_location_even, new_location_odd.
    destruct (Z.even (Z.pos p2)); reflexivity. }
  simpl xorb. replace e' with (e - (Z.pos s - k)) by lia.
  apply binary_round_aux_exact; [done | lia].
Qed.

(** *** The search for the digits *)

Lemma same_finite_eq a sg m e :
  same_finite a (S754_finite sg m e) = true → a = S754_finite sg m e.
Proof.
  destruct a as [| | |sa ma ea]; simpl; try done.
  intros [[H1 H2]%andb_prop H3]%andb_prop.
  apply Bool.eqb_prop in H1. apply Pos.eqb_eq in H2. apply Z.eqb_eq in H3.
  by subst.
Qed.

Lemma same_finite_refl sg m e : same_finite (S754_finite sg m e) (S754_finite sg m e) = true.
Proof. simpl. by rewrite Bool.eqb_reflx, Pos.eqb_refl, Z.eqb_refl. Qed.

Lemma digits_at_sound m e t s :
  digits_at m e t = Some s → binary64 s t = S754_finite false m e.
Proof.
  unfold digits_at.
  set (q := _ / _). set (r := _ mod _). set (den := 2 ^ _ * _).
  destruct (same_finite (binary64 q t) _) eqn:Hlo;
    destruct (same_finite (binary64 (q + 1) t) _) eqn:Hhi;
    apply same_finite_eq in Hlo || clear Hlo;
    apply same_finite_eq in Hhi || clear Hhi.
  - destruct (2 * r ?= den); [destruct (Z.even q)| |]; intros [= <-]; done.
  - intros [= <-]; done.
  - intros [= <-]; done.
  - done.
Qed.

Lemma digits_at_exact m e : canonical m e → is_Some (digits_at m e (Z.min e 0)).
Proof.
  intros Hc. unfold digits_at.
  set (t := Z.min e 0).
  assert (Z.pos m * 2 ^ Z.max e 0 * 10 ^ Z.max (- t) 0 / (2 ^ Z.max (- e) 0 * 10 ^ Z.max t 0)
          = if 0 <=? e then Z.pos m * 2 ^ e else Z.pos m * 5 ^ (- e)) as ->.
  { destruct (Z.leb_spec 0 e) as [He|He].
    - unfold t. rewrite Z.min_r, !Z.max_l, Z.max_r by lia.
      simpl. rewrite Z.mul_1_r. apply Z.div_1_r.
    - unfold t. rewrite Z.min_l by lia.
      rewrite !(Z.max_r e 0), !(Z.max_l (- e) 0) by lia.
      assert (10 ^ (- e) = 5 ^ (- e) * 2 ^ (- e)) as -> by (rewrite <- Z.pow_mul_l; reflexivity).
      rewrite Z.pow_0_r, !Z.mul_1_r, Z.mul_assoc.
      apply Z.div_mul. apply Z.pow_nonzero; lia. }
  assert (same_finite (binary64 (if 0 <=? e then Z.pos m * 2 ^ e else Z.pos m * 5 ^ (- e)) t)
            (S754_finite false m e) = true) as ->.
  { destruct (Z.leb_spec 0 e) as [He|He]; unfold t.
    - rewrite Z.min_r by lia. rewrite binary64_exact_nonneg by done. apply same_finite_refl.
    - rewrite Z.min_l by lia. rewrite binary64_exact_neg by done. apply same_finite_refl. }
  destruct (same_finite _ _); [|by eexists].
  destruct (_ ?= _); by eexists.
Qed.

Lemma shortest_finds fuel : ∀ m e t,
  canonical m e → Z.min e 0 ≤ t → (Z.to_nat (t - Z.min e 0) ≤ fuel)%nat →
  ∃ s t', shortest fuel m e t = Some (s, t') ∧ binary64 s t' = S754_finite false m e.
Proof.
  induction fuel as [|fuel IH]; intros m e t Hc Ht Hfuel; simpl.
  - assert (t = Z.min e 0) as -> by lia.
    destruct (digits_at_exact m e Hc) as [s Hs]. rewrite Hs.
    exists s, (Z.min e 0). split; [done|]. by eapply digits_at_sound.
  - destruct (digits_at m e t) as [s|] eqn:Hs.
    + exists s, t. split; [done|]. by eapply digits_at_sound.
    + assert (t ≠ Z.min e 0) as Hne.
      { intros ->. destruct (digits_at_exact m e Hc) as [s' Hs']. congruence. }
      apply IH; [done | lia | lia].
Qed.

Lemma first_scale_ge m e : Z.min e 0 ≤ first_scale m e.
Proof.
  unfold first_scale.
  pose proof (Z.log2_nonneg (Z.pos m)) as Hl.
  set (b := Z.log2 (Z.pos m) + 1 + e) in *.
  destruct (Z_le_gt_dec 0 b) as [Hb|Hb].
  - assert (0 ≤ b * 30103 / 100000) by (apply Z.div_pos; lia). lia.
  - assert (b ≤ b * 30103 / 100000).
    { apply Z.div_le_lower_bound; lia. }
    lia.
Qed.

Lemma shortest_total m e :
  canonical m e →
  ∃ s t, shortest (Z.to_nat (first_scale m e - Z.min e 0)) m e (first_scale m e) = Some (s, t) ∧
         binary64 s t = S754_finite false m e.
Proof.
  intros Hc. apply shortest_finds; [done | apply first_scale_ge | lia].
Qed.

(** *** Characters and digits *)

Lemma decimal_other c :
  decimal c = true →
  is_exponent c = false ∧ is_dot c = false ∧
  c ≠ "+"%char ∧ c ≠ "-"%char ∧ c ≠ "I"%char ∧ plain c = true.
Proof.
  destruct c as [[] [] [] [] [] [] [] []]; vm_compute; intros H;
    first [discriminate H | repeat split; discriminate].
Qed.

Lemma plain_separators c :
  plain c = true → Ascii.eqb c ","%char = false ∧ Ascii.eqb c (ascii_of_nat 10) = false.
Proof.
  destruct c as [[] [] [] [] [] [] [] []]; vm_compute; intros H;
    first [discriminate H | split; reflexivity].
Qed.

Lemma pretty_N_char_digit d :
  (d < 10)%N →
  decimal (pretty_N_char d) = true ∧ digit (pretty_N_char d) = Some (Z.of_N d).
Proof.
  intros Hd.
  assert (d = 0 ∨ d = 1 ∨ d = 2 ∨ d = 3 ∨ d = 4 ∨ d = 5 ∨ d = 6 ∨ d = 7 ∨ d = 8 ∨ d = 9)%N
    as Hc by lia.
  destruct_or!; subst d; split; reflexivity.
Qed.

Lemma pretty_N_go_decimal x : ∀ s,
  Forall (fun c => decimal c = true) (String.list_ascii_of_string s) →
  Forall (fun c => decimal c = true) (String.list_ascii_of_string (pretty_N_go x s)).
Proof.
  induction (N.lt_wf_0 x) as [x _ IH]; intros s Hs.
  destruct (decide (x = 0)%N) as [->|Hx]; [by rewrite pretty_N_go_0|].
  rewrite pretty_N_go_step by lia.
  apply IH; [apply N.div_lt; lia|].
  simpl. constructor; [|done].
  apply pretty_N_char_digit. apply N.mod_lt. lia.
Qed.

Lemma pretty_N_go_value x : ∀ s,
  value_from 0 (String.list_ascii_of_string (pretty_N_go x s)) = value_from (Z.of_N x) (String.list_ascii_of_string s).
Proof.
  induction (N.lt_wf_0 x) as [x _ IH]; intros s.
  destruct (decide (x = 0)%N) as [->|Hx]; [by rewrite pretty_N_go_0|].
  rewrite pretty_N_go_step by lia.
  rewrite IH by (apply N.div_lt; lia).
  simpl.
  destruct (pretty_N_char_digit (x `mod` 10)%N) as [_ ->]; [apply N.mod_lt; lia|].
  f_equal. rewrite <- N2Z.inj_mul with (n := 10%N), <- N2Z.inj_add.
  f_equal. symmetry. apply N.div_mod. lia.
Qed.

Lemma digits_decimal s : 0 < s → Forall (fun c => decimal c = true) (digits s).
Proof.
  destruct s as [|p|p]; try lia. intros _.
  unfold digits, pretty, pretty_Z, pretty, pretty_positive, pretty, pretty_N.
  rewrite decide_False by done. apply pretty_N_go_decimal. constructor.
Qed.

Lemma digits_value s : 0 < s → value_from 0 (digits s) = Some s.
Proof.
  destruct s as [|p|p]; try lia. intros _.
  unfold digits, pretty, pretty_Z, pretty, pretty_positive, pretty, pretty_N.
  rewrite decide_False by done. rewrite pretty_N_go_value. reflexivity.
Qed.

Lemma digits_nonempty s : 0 < s → digits s ≠ [].
Proof.
  intros Hs Hnil. pose proof (digits_value s Hs) as Hv. rewrite Hnil in Hv.
  simpl in Hv. injection Hv. lia.
Qed.

Lemma value_from_app a : ∀ acc b,
  value_from acc (a ++ b) = value_from acc a ≫= fun v => value_from v b.
Proof.
  induction a as [|c a IH]; intros acc b; simpl; [done|].
  destruct (digit c); [apply IH | done].
Qed.

Lemma value_from_zeros j acc : value_from acc (zeros j) = Some (acc * 10 ^ Z.of_nat (Z.to_nat j)).
Proof.
  unfold zeros. generalize (Z.to_nat j) as n. clear j. intros n. revert acc.
  induction n as [|n IH]; intros acc.
  - simpl. f_equal. lia.
  - cbn [replicate value_from]. change (digit "0") with (Some 0). cbv iota.
    rewrite IH. f_equal. rewrite Nat2Z.inj_succ, Z.pow_succ_r by lia. lia.
Qed.

Lemma zeros_decimal j : Forall (fun c => decimal c = true) (zeros j).
Proof. unfold zeros. apply Forall_replicate. reflexivity. Qed.

Lemma length_zeros j : 0 ≤ j → Z.of_nat (length (zeros j)) = j.
Proof. intros Hj. unfold zeros. rewrite length_replicate. lia. Qed.

Lemma break_none P l : Forall (fun c => P c = false) l → break P l = (l, None).
Proof.
  induction 1 as [|c l Hc _ IH]; simpl; [done|]. by rewrite Hc, IH.
Qed.

Lemma break_app P a c b :
  Forall (fun c => P c = false) a → P c = true → break P (a ++ c :: b) = (a, Some b).
Proof.
  intros Ha Hc. induction Ha as [|x a Hx _ IH]; simpl.
  - by rewrite Hc.
  - by rewrite Hx, IH.
Qed.

Lemma decimal_not_exponent l :
  Forall (fun c => decimal c = true) l → Forall (fun c => is_exponent c = false) l.
Proof. intros H. eapply Forall_impl; [exact H|]. intros c Hc. by apply decimal_other. Qed.

Lemma decimal_not_dot l :
  Forall (fun c => decimal c = true) l → Forall (fun c => is_dot c = false) l.
Proof. intros H. eapply Forall_impl; [exact H|]. intros c Hc. by apply decimal_other. Qed.

Lemma decimal_plain l :
  Forall (fun c => decimal c = true) l → Forall (fun c => plain c = true) l.
Proof. intros H. eapply Forall_impl; [exact H|]. intros c Hc. by apply decimal_other. Qed.

Lemma binary64_scale s j : 0 < s → 0 ≤ j → binary64 (s * 10 ^ j) 0 = binary64 s j.
Proof.
  intros Hs Hj.
  assert (0 < s * 10 ^ j) as Hp by (apply Z.mul_pos_pos; [done | apply Z.pow_pos_nonneg; lia]).
  destruct s as [|p|p]; try lia.
  destruct (Z.pos p * 10 ^ j) as [|p'|p'] eqn:Hp'; try lia.
  unfold binary64. change (0 <=? 0) with true. cbv iota.
  replace (0 <=? j) with true by (symmetry; apply Z.leb_le; lia).
  rewrite Z.pow_0_r, Z.mul_1_r, Hp'. reflexivity.
Qed.

Lemma mantissa_digits i ex v :
  Forall (fun c => decimal c = true) i → i ≠ [] → value_from 0 i = Some v →
  mantissa i ex = Some (binary64 v ex).
Proof.
  intros Hi Hne Hv. unfold mantissa.
  rewrite break_none by by apply decimal_not_dot.
  unfold natural. destruct i; [done|]. by rewrite Hv.
Qed.

Lemma mantissa_dot i f ex v :
  Forall (fun c => decimal c = true) i → i ≠ [] → value_from 0 (i ++ f) = Some v →
  mantissa (i ++ "."%char :: f) ex = Some (binary64 v (ex - Z.of_nat (length f))).
Proof.
  intros Hi Hne Hv. unfold mantissa.
  rewrite break_app; [|by apply decimal_not_dot | reflexivity].
  rewrite bool_decide_eq_false_2 by (intros [? _]; done).
  by rewrite Hv.
Qed.

Lemma unsigned_plain m :
  (∃ c r, m = c :: r ∧ decimal c = true) →
  Forall (fun c => is_exponent c = false) m →
  unsigned m = mantissa m 0.
Proof.
  intros (c & r & -> & Hc) Hm. unfold unsigned.
  rewrite bool_decide_eq_false_2.
  - by rewrite break_none.
  - intros [= -> _]. by destruct (decimal_other _ Hc) as (_ & _ & _ & _ & ? & _).
Qed.

Lemma unsigned_exponent m x ex :
  (∃ c r, m = c :: r ∧ decimal c = true) →
  Forall (fun c => is_exponent c = false) m →
  integer x = Some ex →
  unsigned (m ++ "e"%char :: x) = mantissa m ex.
Proof.
  intros (c & r & -> & Hc) Hm Hx. unfold unsigned.
  rewrite bool_decide_eq_false_2.
  - rewrite break_app; [|done|reflexivity]. by rewrite Hx.
  - intros [= -> _]. by destruct (decimal_other _ Hc) as (_ & _ & _ & _ & ? & _).
Qed.

Lemma integer_signed n :
  n < 0 ∨ 1 < n →
  integer ((if n <? 0 then "-"%char else "+"%char) :: digits (Z.abs (n - 1))) = Some (n - 1)
  ∧ Forall (fun c => plain c = true)
      ((if n <? 0 then "-"%char else "+"%char) :: digits (Z.abs (n - 1))).
Proof.
  intros Hn.
  assert (0 < Z.abs (n - 1)) as Habs by lia.
  pose proof (digits_value _ Habs) as Hv.
  pose proof (digits_nonempty _ Habs) as Hne.
  pose proof (digits_decimal _ Habs) as Hd.
  destruct (Z.ltb_spec n 0) as [Hlt|Hge]; simpl; unfold natural;
    (destruct (digits (Z.abs (n - 1))) eqn:Hds; [done|]); rewrite Hv; simpl.
  - split; [f_equal; lia|]. constructor; [reflexivity | by apply decimal_plain].
  - split; [f_equal; lia|]. constructor; [reflexivity | by apply decimal_plain].
Qed.

(** *** Reading what [notation] writes *)

Lemma starts_decimal_app a b :
  (∃ c r, a = c :: r ∧ decimal c = true) → ∃ c r, a ++ b = c :: r ∧ decimal c = true.
Proof. intros (c & r & -> & Hc). by exists c, (r ++ b). Qed.

Lemma starts_decimal_all l :
  l ≠ [] → Forall (fun c => decimal c = true) l → ∃ c r, l = c :: r ∧ decimal c = true.
Proof. intros Hne Hl. destruct Hl as [|c r Hc _]; [done|]. by exists c, r. Qed.

Lemma notation_read s t :
  0 < s →
  unsigned (notation s t) = Some (binary64 s t) ∧
  Forall (fun c => plain c = true) (notation s t) ∧
  ∃ c r, notation s t = c :: r ∧ decimal c = true.
Proof.
  intros Hs. unfold notation.
  pose proof (digits_value s Hs) as Hv.
  pose proof (digits_nonempty s Hs) as Hne.
  pose proof (digits_decimal s Hs) as Hd.
  set (ds := digits s) in *.
  assert (1 ≤ Z.of_nat (length ds)) as Hk by (destruct ds; [done | simpl; lia]).
  set (k := Z.of_nat (length ds)) in *.
  cbv zeta.
  destruct ((-5 <=? t + k) && (t + k <=? 21)) eqn:Hrange.
  - destruct (Z.leb_spec k (t + k)) as [Hle|Hgt].
    + (* digits followed by zeros *)
      replace (t + k - k) with t by lia.
      assert (Forall (fun c => decimal c = true) (ds ++ zeros t)) as Hall
        by (apply Forall_app; split; [done | apply zeros_decimal]).
      split; [|split].
      * rewrite unsigned_plain;
          [|apply starts_decimal_app, starts_decimal_all; done
           |by apply decimal_not_exponent].
        rewrite (mantissa_digits _ 0 (s * 10 ^ t)); [|done|by destruct ds|].
        -- by rewrite binary64_scale by lia.
        -- rewrite value_from_app, Hv. simpl. rewrite value_from_zeros.
           by rewrite Z2Nat.id by lia.
      * by apply decimal_plain.
      * by apply starts_decimal_app, starts_decimal_all.
    + destruct (Z.ltb_spec 0 (t + k)) as [Hpos|Hneg].
      * (* a point inside the digits *)
        assert (take (Z.to_nat (t + k)) ds ≠ []) as Htake.
        { destruct ds; [done|]. destruct (Z.to_nat (t + k)) eqn:Hn; [lia | done]. }
        assert (Forall (fun c => decimal c = true) (take (Z.to_nat (t + k)) ds)) as Hdt
          by by apply Forall_take.
        assert (Forall (fun c => decimal c = true) (drop (Z.to_nat (t + k)) ds)) as Hdd
          by by apply Forall_drop.
        split; [|split].
        -- rewrite unsigned_plain.
           ++ rewrite (mantissa_dot _ _ 0 s); [|done|done|by rewrite take_drop].
              do 2 f_equal. rewrite length_drop. unfold k in *. lia.
           ++ by apply starts_decimal_app, starts_decimal_all.
           ++ apply Forall_app; split; [by apply decimal_not_exponent|].
              constructor; [reflexivity | by apply decimal_not_exponent].
        -- apply Forall_app; split; [by apply decimal_plain|].
           constructor; [reflexivity | by apply decimal_plain].
        -- by apply starts_decimal_app, starts_decimal_all.
      * (* zeros between the point and the digits *)
        assert (Forall (fun c => decimal c = true) (zeros (- (t + k)) ++ ds)) as Hall
          by (apply Forall_app; split; [apply zeros_decimal | done]).
        split; [|split].
        -- rewrite unsigned_plain.
           ++ change ("0"%char :: "."%char :: ?l) with (["0"%char] ++ "."%char :: l).
              rewrite (mantissa_dot ["0"%char] _ 0 s); [|by constructor|done|].
              ** do 2 f_equal. rewrite length_app, Nat2Z.inj_add, length_zeros by lia.
                 unfold k in *. lia.
              ** change (["0"%char] ++ ?l) with ("0"%char :: l).
                 cbn [value_from]. change (digit "0") with (Some 0). cbv iota.
                 rewrite value_from_app, value_from_zeros. simpl. exact Hv.
           ++ by exists "0"%char, ("."%char :: zeros (- (t + k)) ++ ds).
           ++ constructor; [reflexivity|]. constructor; [reflexivity|].
              by apply decimal_not_exponent.
        -- constructor; [reflexivity|]. constructor; [reflexivity|].
           by apply decimal_plain.
        -- by exists "0"%char, ("."%char :: zeros (- (t + k)) ++ ds).
  - assert (t + k < 0 ∨ 1 < t + k) as Hout.
    { apply andb_false_iff in Hrange as [H|H]; apply Z.leb_gt in H; lia. }
    destruct (integer_signed _ Hout) as [Hint Hplain].
    destruct (Z.eqb_spec k 1) as [Hone|Hmore].
    + (* one digit and an exponent *)
      split; [|split].
      * rewrite (unsigned_exponent _ _ (t + k - 1));
          [|by apply starts_decimal_all|by apply decimal_not_exponent|done].
        rewrite (mantissa_digits _ _ s) by done.
        do 2 f_equal. lia.
      * apply Forall_app; split; [by apply decimal_plain|].
        constructor; [reflexivity | done].
      * by apply starts_decimal_app, starts_decimal_all.
    + (* one digit, a point, the other digits and an exponent *)
      assert (take 1 ds ≠ []) as Htake by by destruct ds.
      assert (Forall (fun c => decimal c = true) (take 1 ds)) as Hdt by by apply Forall_take.
      assert (Forall (fun c => decimal c = true) (drop 1 ds)) as Hdd by by apply Forall_drop.
      change (take 1 ds ++ "."%char :: drop 1 ds ++ ?x)
        with (take 1 ds ++ ("."%char :: drop 1 ds) ++ x).
      rewrite (assoc_L (++)).
      split; [|split].
      * rewrite (unsigned_exponent _ _ (t + k - 1)); [| | |done].
        -- rewrite (mantissa_dot _ _ _ s); [|done|done|by rewrite take_drop].
           do 2 f_equal. rewrite length_drop. unfold k in *. lia.
        -- by apply starts_decimal_app, starts_decimal_all.
        -- apply Forall_app; split; [by apply decimal_not_exponent|].
           constructor; [reflexivity | by apply decimal_not_exponent].
      * apply Forall_app; split.
        -- apply Forall_app; split; [by apply decimal_plain|].
           constructor; [reflexivity | by apply decimal_plain].
        -- constructor; [reflexivity | done].
      * rewrite <- (assoc_L (++)). by apply starts_decimal_app, starts_decimal_all.
Qed.

(** *** Reading what [Number_toString] writes *)

Lemma plain_other c : plain c = true → white_space c = false ∧ radix_of c = None.
Proof.
  destruct c as [[] [] [] [] [] [] [] []]; vm_compute; intros H;
    first [discriminate H | split; reflexivity].
Qed.

Lemma trim_plain l : Forall (fun c => plain c = true) l → trim l = l.
Proof.
  intros Hl.
  assert (∀ l', Forall (fun c => plain c = true) l' → skip_space l' = l') as Hskip.
  { intros l' [|c r Hc _]; [done|]. simpl. by destruct (plain_other c Hc) as [-> _]. }
  unfold trim. rewrite (Hskip l Hl), Hskip by by apply Forall_reverse.
  apply reverse_involutive.
Qed.

Lemma numeric_plain l : Forall (fun c => plain c = true) l → numeric l = literal l.
Proof.
  intros Hl. destruct l as [|a [|b r]]; [done | by destruct a as [[] [] [] [] [] [] [] []] |].
  apply Forall_cons in Hl as [_ Hl]. apply Forall_cons in Hl as [Hb _].
  destruct (plain_other b Hb) as [_ Hr]. unfold numeric.
  destruct a as [[] [] [] [] [] [] [] []]; try reflexivity. by rewrite Hr.
Qed.

Lemma literal_decimal c r : decimal c = true → literal (c :: r) = unsigned (c :: r).
Proof. destruct c as [[] [] [] [] [] [] [] []]; first [discriminate | reflexivity]. Qed.

Lemma valid_canonical sg m e : valid_binary (S754_finite sg m e) = true → canonical m e.
Proof.
  unfold valid_binary, bounded, canonical_mantissa, canonical. intros H.
  apply andb_true_iff in H as [H1 H2].
  apply Z.eqb_eq in H1. apply Z.leb_le in H2. split; [exact H1 | exact H2].
Qed.

Lemma binary64_positive s t sg m e : binary64 s t = S754_finite sg m e → 0 < s.
Proof. destruct s; [discriminate | lia | discriminate]. Qed.

(** The digits the printer writes for a finite number: the search always
    ends, on digits that denote the number. *)
Lemma Number_toString_finite x sg m e :
  Prim2SF x = S754_finite sg m e →
  ∃ s t, 0 < s ∧ binary64 s t = S754_finite false m e ∧
    Number_toString x =
      String.string_of_list_ascii ((if sg then ["-"%char] else []) ++ notation s t).
Proof.
  intros Hx. pose proof (Prim2SF_valid x) as Hvalid. rewrite Hx in Hvalid.
  destruct (shortest_total m e (valid_canonical _ _ _ Hvalid)) as (s & t & Hfound & Hval).
  exists s, t. split; [by eapply binary64_positive|]. split; [done|].
  unfold Number_toString. by rewrite Hx, Hfound.
Qed.

(** The text of any number reads back as that number. *)
Lemma StringToNumber_Number_toString x :
  StringToNumber (Number_toString x) = drop_zero_sign x.
Proof.
  pose proof (SF2Prim_Prim2SF x) as Hx. unfold drop_zero_sign.
  destruct (Prim2SF x) as [sg|sg| |sg m e] eqn:Hsf.
  - unfold Number_toString. rewrite Hsf. reflexivity.
  - unfold Number_toString. rewrite Hsf. rewrite <- Hx. by destruct sg.
  - unfold Number_toString. rewrite Hsf. rewrite <- Hx. reflexivity.
  - destruct (Number_toString_finite x sg m e Hsf) as (s & t & Hs & Hval & ->).
    destruct (notation_read s t Hs) as (Hread & Hplain & c & r & Hhead & Hc).
    unfold StringToNumber. rewrite String.list_ascii_of_string_of_list_ascii.
    assert (Forall (fun c => plain c = true) ((if sg then ["-"%char] else []) ++ notation s t))
      as Hall by (destruct sg; [by constructor | done]).
    assert (literal ((if sg then ["-"%char] else []) ++ notation s t) =
            Some (S754_finite sg m e)) as Hlit.
    { destruct sg; simpl.
      - by rewrite Hread, Hval.
      - rewrite Hhead, literal_decimal, <- Hhead by done. by rewrite Hread, Hval. }
    rewrite trim_plain by done.
    rewrite <- (numeric_plain _ Hall) in Hlit.
    destruct ((if sg then ["-"%char] else []) ++ notation s t) as [|a l] eqn:Htext.
    { destruct sg; [done | by rewrite Hhead in Htext]. }
    by rewrite Hlit.
Qed.

Lemma free_of_chars sep l :
  Forall (fun c => Ascii.eqb c sep = false) l →
  free_of sep (String.string_of_list_ascii l) = true.
Proof. induction 1 as [|c l Hc _ IH]; simpl; [done|]. by rewrite Hc, IH. Qed.

(** The text of a number holds neither separator of the export. *)
Lemma Number_toString_free x :
  free_of comma (Number_toString x) = true ∧ free_of linefeed (Number_toString x) = true.
Proof.
  destruct (Prim2SF x) as [sg|sg| |sg m e] eqn:Hsf.
  - unfold Number_toString. rewrite Hsf. by split.
  - unfold Number_toString. rewrite Hsf. by destruct sg.
  - unfold Number_toString. rewrite Hsf. by split.
  - destruct (Number_toString_finite x sg m e Hsf) as (s & t & Hs & _ & ->).
    destruct (notation_read s t Hs) as (_ & Hplain & _).
    assert (Forall (fun c => plain c = true) ((if sg then ["-"%char] else []) ++ notation s t))
      as Hall by (destruct sg; [by constructor | done]).
    split; apply free_of_chars; (eapply Forall_impl; [exact Hall|]);
      intros c Hc; by apply plain_separators.
Qed.

Lemma drop_zero_sign_id x : Prim2SF x ≠ S754_zero true → drop_zero_sign x = x.
Proof.
  intros Hx. pose proof (SF2Prim_Prim2SF x) as Hsf. unfold drop_zero_sign.
  destruct (Prim2SF x) as [[]| | |]; [done | by rewrite <- Hsf | done..].
Qed.

(** Dropping the sign of a zero keeps the value. *)
Lemma drop_zero_sign_exact x : exact (drop_zero_sign x) = exact x.
Proof.
  unfold drop_zero_sign, exact. by destruct (Prim2SF x) eqn:Hx; rewrite ?Hx.
Qed.

End Conversions.

(** C5: for every non-empty path [exportToCSV], with the language's
    [Number::toString], builds one file of type text/csv and offers it as
    [walk_path.csv]: these are all its calls, and it changes nothing. The
    file is the header [Latitude,Longitude], then the rows of the points in
    path order, a line feed before each. Its lines are the header and one
    row per point; each row holds the text of the latitude, then of the
    longitude, of its point; and each text, read with the language's
    [Number], is the very number written, whatever it is (but for the
    negative zero, which is written [0] and reads as zero). So the file
    read back is the path: same points, same order, every coordinate with
    all its digits. *)
Theorem exportToCSV_reads_back r w :
  path r ≠ [] →
  ∃ content,
    exportToCSV ECMAScript.Number_toString r w =
      (Normal tt, w,
       [Call_Blob [content] "text/csv;charset=utf-8;";
        Call_createElement "a";
        Call_createObjectURL;
        Call_setAttribute "href" ObjectURL;
        Call_setAttribute "download" (Literal "walk_path.csv");
        Call_setStyle "visibility" "hidden";
        Call_appendChild;
        Call_click;
        Call_removeChild]) ∧
    content = "Latitude,Longitude" +:+ newline +:+
              JS.join newline (map (csvRow ECMAScript.Number_toString) (path r)) ∧
    split_on linefeed content =
      "Latitude,Longitude" :: map (csvRow ECMAScript.Number_toString) (path r) ∧
    Forall (fun p =>
              split_on comma (csvRow ECMAScript.Number_toString p) =
                [ECMAScript.Number_toString (lat p); ECMAScript.Number_toString (lng p)] ∧
              ECMAScript.StringToNumber (ECMAScript.Number_toString (lat p)) =
                drop_zero_sign (lat p) ∧
              ECMAScript.StringToNumber (ECMAScript.Number_toString (lng p)) =
                drop_zero_sign (lng p)) (path r) ∧
    readCSV (fun s => Some (ECMAScript.StringToNumber s)) content =
      Some (map read_back (path r)) ∧
    (Forall (fun p => Prim2SF (lat p) ≠ S754_zero true ∧
                      Prim2SF (lng p) ≠ S754_zero true) (path r) →
     readCSV (fun s => Some (ECMAScript.StringToNumber s)) content = Some (path r)).
Proof.
  intros Hne.
  pose proof (fun x => proj1 (Number_toString_free x)) as Hcomma.
  pose proof (fun x => proj2 (Number_toString_free x)) as Hfeed.
  assert (∀ x, (fun s => Some (ECMAScript.StringToNumber s)) (ECMAScript.Number_toString x)
               = Some (drop_zero_sign x)) as Hparse
    by (intros x; simpl; f_equal; apply StringToNumber_Number_toString).
  pose proof (readCSV_export ECMAScript.Number_toString _ drop_zero_sign (path r)
                Hcomma Hfeed Hparse Hne) as Hread.
  exists (csvHeader +:+ JS.join newline (map (csvRow ECMAScript.Number_toString) (path r))).
  split; [by apply exportToCSV_calls|].
  split; [reflexivity|].
  split; [by apply export_lines|].
  split; [|split].
  - apply Forall_forall. intros p _. split; [|split].
    + exact (proj1 (readRow_csvRow ECMAScript.Number_toString
                      (fun s => Some (ECMAScript.StringToNumber s)) drop_zero_sign p
                      Hcomma Hparse)).
    + apply StringToNumber_Number_toString.
    + apply StringToNumber_Number_toString.
  - exact Hread.
  - intros Hzero. rewrite Hread. f_equal.
    rewrite <- (map_id (path r)) at 2. apply map_ext_Forall.
    eapply Forall_impl; [exact Hzero|].
    intros [la lo] [Hla Hlo]. unfold read_back. simpl in *.
    by rewrite !drop_zero_sign_id.
Qed.

(** ** The properties on the sample walks *)

Lemma sampleRun_reachable evs :
  reachable sampleArea ECMAScript.Number_toString (sampleRun evs).
Proof. apply reachable_run. constructor. Qed.

Lemma walkDone_reachable : reachable sampleArea ECMAScript.Number_toString walkDone.
Proof. constructor. apply sampleRun_reachable. Qed.

(** C1, as the claim states it, fails on a walk stopped before its first
    fix: the path has fewer than 3 points, and no message is set. *)
Lemma stopTracking_empty_path_unreported :
  reachable sampleArea ECMAScript.Number_toString walkStarted ∧
  (length (path (app walkStarted)) < 3)%nat ∧
  error (app (world_after (stopTracking sampleArea (app walkStarted)) walkStarted)) = None ∧
  error (app (world_after (stopTracking sampleArea (app walkStarted)) walkStarted))
    ≠ Some notEnoughPoints.
Proof.
  split; [apply sampleRun_reachable|].
  split; [vm_compute; lia|].
  split; [reflexivity | discriminate].
Qed.

(** C1 (as amended) on a walk with one fix. *)
Lemma stopTracking_insufficient_points_one_fix :
  reachable sampleArea ECMAScript.Number_toString walkOnePoint ∧
  (length (path (app walkOnePoint)) < 3)%nat ∧
  returns (stopTracking sampleArea (app walkOnePoint)) walkOnePoint = true ∧
  Forall (fun c => is_calculatePolygonArea c = false)
    (calls_of (stopTracking sampleArea (app walkOnePoint)) walkOnePoint) ∧
  area (app (world_after (stopTracking sampleArea (app walkOnePoint)) walkOnePoint)) = None ∧
  ((0 < length (path (app walkOnePoint)))%nat →
   error (app (world_after (stopTracking sampleArea (app walkOnePoint)) walkOnePoint))
     = Some notEnoughPoints) ∧
  (length (path (app walkOnePoint)) = 0%nat →
   error (app (world_after (stopTracking sampleArea (app walkOnePoint)) walkOnePoint))
     = error (app walkOnePoint)).
Proof.
  split; [apply sampleRun_reachable|].
  split; [vm_compute; lia|].
  apply (stopTracking_insufficient_points sampleArea ECMAScript.Number_toString walkOnePoint).
  - apply sampleRun_reachable.
  - vm_compute; lia.
Defined.

(** C9 on a walk stopped before its first fix. *)
Lemma stopTracking_empty_path_started :
  reachable sampleArea ECMAScript.Number_toString walkStarted ∧
  (path (app walkStarted) = [] →
   error (app (world_after (stopTracking sampleArea (app walkStarted)) walkStarted))
     = error (app walkStarted) ∧
   area (app (world_after (stopTracking sampleArea (app walkStarted)) walkStarted)) = None) ∧
  error (app (world_after (stopTracking sampleArea (app walkStarted)) walkStarted)) =
    (if decide (1 ≤ length (path (app walkStarted)) ≤ 2)%nat then Some notEnoughPoints
     else error (app walkStarted)).
Proof.
  split; [apply sampleRun_reachable|].
  apply (stopTracking_empty_path sampleArea ECMAScript.Number_toString walkStarted).
  apply sampleRun_reachable.
Defined.

(** C6 on a finished walk: four points and an area before, none after. *)
Lemma startTracking_clears_walk_done :
  reachable sampleArea ECMAScript.Number_toString walkDone ∧
  length (path (app walkDone)) = 4%nat ∧
  area (app walkDone) = Some 12390%float ∧
  path (app (world_after (startTracking (app walkDone)) walkDone)) = [] ∧
  area (app (world_after (startTracking (app walkDone)) walkDone)) = None.
Proof.
  split; [apply walkDone_reachable|].
  split; [reflexivity|]. split; [reflexivity|].
  apply (startTracking_clears_walk sampleArea ECMAScript.Number_toString walkDone).
  apply walkDone_reachable.
Defined.

(** C10 on a walk without a fix. *)
Lemma exportToCSV_empty_path_started :
  path (app walkStarted) = [] ∧
  exportToCSV ECMAScript.Number_toString (app walkStarted) walkStarted
    = (Normal tt, walkStarted, []).
Proof.
  split; [reflexivity|].
  apply (exportToCSV_empty_path ECMAScript.Number_toString). reflexivity.
Defined.

(** C3 on a result of 1000 square meters shown in hectares. *)
Lemma convertedArea_is_product_hectares :
  area (with_selectedUnit HECTARES (with_area (Some 1000%float) initialState))
    = Some 1000%float ∧
  ∃ f, UNIT_CONVERSIONS !!
         AreaUnit_value (selectedUnit
           (with_selectedUnit HECTARES (with_area (Some 1000%float) initialState))) = Some f ∧
       convertedArea (with_selectedUnit HECTARES (with_area (Some 1000%float) initialState))
         = (1000 * f)%float ∧
       Prim2SF (convertedArea
                  (with_selectedUnit HECTARES (with_area (Some 1000%float) initialState)))
         = SF64mul (Prim2SF 1000%float) (Prim2SF f).
Proof.
  split; [reflexivity|].
  apply (convertedArea_is_product
           (with_selectedUnit HECTARES (with_area (Some 1000%float) initialState))
           1000%float).
  reflexivity.
Defined.

(** C5 on the finished sample walk, none of whose coordinates is a negative
    zero: the file reads back as the path. *)
Lemma exportToCSV_reads_back_walk_done :
  path (app walkDone) ≠ [] ∧
  ∃ content,
    exportToCSV ECMAScript.Number_toString (app walkDone) walkDone =
      (Normal tt, walkDone,
       [Call_Blob [content] "text/csv;charset=utf-8;";
        Call_createElement "a";
        Call_createObjectURL;
        Call_setAttribute "href" ObjectURL;
        Call_setAttribute "download" (Literal "walk_path.csv");
        Call_setStyle "visibility" "hidden";
        Call_appendChild;
        Call_click;
        Call_removeChild]) ∧
    split_on linefeed content =
      "Latitude,Longitude" ::
      map (csvRow ECMAScript.Number_toString) (path (app walkDone)) ∧
    readCSV (fun s => Some (ECMAScript.StringToNumber s)) content =
      Some (path (app walkDone)).
Proof.
  assert (path (app walkDone) ≠ []) as Hne by (vm_compute; discriminate).
  split; [exact Hne|].
  destruct (exportToCSV_reads_back (app walkDone) walkDone Hne)
    as (content & Hcalls & _ & Hlines & _ & _ & Hread).
  exists content. split; [exact Hcalls|]. split; [exact Hlines|].
  apply Hread.
  change (path (app walkDone)) with
    [ {| lat := 33.684412345; lng := 73.047912345 |};
      {| lat := 33.684412345; lng := 73.0489 |};
      {| lat := 33.6853125; lng := 73.0489 |};
      {| lat := 33.6853125; lng := 73.047912345 |} ]%float.
  repeat constructor; vm_compute; discriminate.
Defined.

(** The calls of that export, with the text of the file. *)
Example exportToCSV_walk_done_text :
  exportToCSV ECMAScript.Number_toString (app walkDone) walkDone =
    (Normal tt, walkDone,
     [Call_Blob ["Latitude,Longitude" +:+ newline +:+
                 "33.684412345,73.047912345" +:+ newline +:+
                 "33.684412345,73.0489" +:+ newline +:+
                 "33.6853125,73.0489" +:+ newline +:+
                 "33.6853125,73.047912345"]
        "text/csv;charset=utf-8;";
      Call_createElement "a";
      Call_createObjectURL;
      Call_setAttribute "href" ObjectURL;
      Call_setAttribute "download" (Literal "walk_path.csv");
      Call_setStyle "visibility" "hidden";
      Call_appendChild;
      Call_click;
      Call_removeChild]).
Proof. vm_compute. reflexivity. Qed.

(** The negative zero is written as zero, and reads back as zero. *)
Example negative_zero_text :
  ECMAScript.Number_toString (-0)%float = "0" ∧
  ECMAScript.StringToNumber (ECMAScript.Number_toString (-0)%float) = 0%float.
Proof. split; vm_compute; reflexivity. Qed.

(** Numbers as the language writes them. *)
Example Number_toString_samples :
  map ECMAScript.Number_toString
    [0.247105; 0.1 + 0.2; 100; 1e21; 1e-7; 0.000001; 5e-324; -33.6844;
     1.7976931348623157e308; nan; infinity]%float =
    ["0.247105"; "0.30000000000000004"; "100"; "1e+21"; "1e-7"; "0.000001";
     "5e-324"; "-33.6844"; "1.7976931348623157e+308"; "NaN"; "Infinity"].
Proof. vm_compute. reflexivity. Qed.

(** Texts as the language reads them. *)
Example StringToNumber_samples :
  map ECMAScript.StringToNumber
    ["33.684412345"; ".5"; "5."; "+5"; "-1.5E+3"; "Infinity"; "-Infinity";
     " 12 "; " "; "0x1F"; "1e400"; "1,2"; "12px"; "."; "-0x10"] =
    [33.684412345; 0.5; 5; 5; -1500; infinity; neg_infinity;
     12; 0; 31; infinity; nan; nan; nan; nan]%float.
Proof. vm_compute. reflexivity. Qed.

(** ** The watch and the result in every reachable world *)

Section WatchInvariant.

Context (calculatePolygonArea : list GeoPoint → float).
Context (Number_toString : float → string).

Local Abbreviation reachable := (reachable calculatePolygonArea Number_toString).
Local Abbreviation dispatch := (dispatch calculatePolygonArea Number_toString).
Local Abbreviation handler_of := (handler_of calculatePolygonArea Number_toString).
Local Abbreviation run := (run calculatePolygonArea Number_toString).

Lemma dispatch_one_watch ev w :
  consistent w → one_watch w → one_watch (dispatch ev w).
Proof.
  intros [Hs Hg] (Hw & Ht & Hn).
  destruct w as [[tr pa ar un er wi gs ac] geo ws nx]; simpl in *. subst gs.
  destruct geo.
  - clear Hg. destruct Hw as [-> | (x & -> & ->)].
    + destruct ev; step_handlers; unfold one_watch; simpl;
        try (specialize (Hn _ eq_refl)); filter_watches;
        (split; [|split]); settle.
    + specialize (Hn _ eq_refl). destruct x as [xi xr]; simpl in *.
      destruct ev; step_handlers; unfold one_watch; simpl;
        filter_watches; (split; [|split]); settle.
  - destruct (Hg eq_refl) as (-> & -> & -> & ->).
    destruct ev; step_handlers; unfold one_watch; simpl; naive_solver.
Qed.

Lemma dispatch_result_current ev w :
  consistent w → one_watch w → result_current calculatePolygonArea w →
  result_current calculatePolygonArea (dispatch ev w).
Proof.
  intros [Hs Hg] (Hw & Ht & Hn) Hr.
  destruct w as [[tr pa ar un er wi gs ac] geo ws nx]; simpl in *. subst gs.
  unfold result_current in *; simpl in *.
  destruct geo.
  - clear Hg. destruct Hw as [-> | (x & -> & ->)].
    + destruct ev; step_handlers; intros a Ha; simplify_eq/=;
        try (specialize (Hr _ eq_refl)); filter_watches; settle.
    + specialize (Hn _ eq_refl). destruct x as [xi xr]; simpl in *.
      destruct ev; step_handlers; intros a Ha; simplify_eq/=;
        try (specialize (Hr _ eq_refl)); filter_watches; settle.
  - destruct (Hg eq_refl) as (-> & -> & -> & ->).
    destruct ev; step_handlers; intros a Ha; simplify_eq/=.
Qed.

Lemma mount_one_watch geo : one_watch (mount geo).
Proof. destruct geo; (split; [|split]); simpl; try done; by left. Qed.

Lemma mount_result_current geo : result_current calculatePolygonArea (mount geo).
Proof. destruct geo; intros a Ha; discriminate Ha. Qed.

Lemma reachable_sound w :
  reachable w → consistent w ∧ one_watch w ∧ result_current calculatePolygonArea w.
Proof.
  induction 1 as [geo | ev w _ (Hc & Ho & Hr)].
  - split; [|split].
    + apply (reachable_consistent calculatePolygonArea Number_toString). constructor.
    + apply mount_one_watch.
    + apply mount_result_current.
  - split; [|split].
    + by apply dispatch_consistent.
    + by apply dispatch_one_watch.
    + by apply dispatch_result_current.
Qed.

(** X1: in every reachable world at most one position watch is active, every
    active watch is the one whose handle the component holds in [watchId],
    and while [isTracking] is set there is exactly one. *)
Theorem one_watch_at_most w :
  reachable w →
  (length (watches w) ≤ 1)%nat ∧
  (∀ x, x ∈ watches w → watchId (app w) = Some (watch_id x)) ∧
  (isTracking (app w) = true →
   ∃ x, watches w = [x] ∧ watchId (app w) = Some (watch_id x)).
Proof.
  intros (_ & (Hw & Ht & _) & _)%reachable_sound.
  destruct Hw as [Hw | (x & Hw & Hx)]; rewrite Hw in *.
  - split; [simpl; lia|]. split; [intros x Hx; by apply elem_of_nil in Hx|].
    intros Htr. by destruct (Ht Htr).
  - split; [simpl; lia|]. split; [|eauto].
    intros y Hy. apply list_elem_of_singleton in Hy. by subst.
Qed.

(** X2: whenever a result is held, it is what [calculatePolygonArea] returns
    on the path as it stands, the path has three points or more, tracking is
    off and no watch is active. *)
Theorem result_is_area_of_path w a :
  reachable w → area (app w) = Some a →
  a = calculatePolygonArea (path (app w)) ∧ (2 < length (path (app w)))%nat ∧
  watches w = [] ∧ isTracking (app w) = false.
Proof. intros (_ & _ & Hr)%reachable_sound Ha. by apply Hr. Qed.
End WatchInvariant.

(** ** What each event does *)

Section Events.

Context (calculatePolygonArea : list GeoPoint → float).
Context (Number_toString : float → string).

Local Abbreviation reachable := (reachable calculatePolygonArea Number_toString).
Local Abbreviation dispatch := (dispatch calculatePolygonArea Number_toString).
Local Abbreviation handler_of := (handler_of calculatePolygonArea Number_toString).
Local Abbreviation run := (run calculatePolygonArea Number_toString).

Lemma errorMessage_truthy code msg : JS.truthy (Some (errorMessage code msg)) = true.
Proof. unfold errorMessage. repeat case_decide; reflexivity. Qed.

(** X3: a click on the button of an idle component with geolocation starts
    a walk: error, path, area and accuracy are reset, the unit is kept, and
    exactly one watch is active afterwards, the new one, whose callbacks
    closed over the state before the click; a watch left from before is
    cleared. *)
Theorem start_registers_one_watch w :
  reachable w → isTracking (app w) = false → geolocation w = true →
  app (dispatch ClickToggle w) =
    {| isTracking := true; path := []; area := None;
       selectedUnit := selectedUnit (app w); error := None;
       watchId := Some (nextWatchId w); isGeoSupported := true;
       currentAccuracy := None |} ∧
  watches (dispatch ClickToggle w) = [mkWatch (nextWatchId w) (app w)] ∧
  nextWatchId (dispatch ClickToggle w) = (nextWatchId w + 1)%Z ∧
  geolocation (dispatch ClickToggle w) = true.
Proof.
  intros ([Hs _] & (Hw & _ & Hn) & _)%(reachable_sound calculatePolygonArea Number_toString) Htr Hgeo.
  destruct w as [[tr pa ar un er wi gs ac] geo ws nx]; simpl in *. subst.
  destruct Hw as [-> | (x & -> & ->)].
  - destruct wi as [i|]; step_handlers; try (specialize (Hn _ eq_refl));
      filter_watches; settle.
  - specialize (Hn _ eq_refl). destruct x as [xi xr]; simpl in *.
    step_handlers; filter_watches; settle.
Qed.

(** X4: a click on the button while tracking clears the held watch, leaves
    no watch active, keeps the path and the unit, and sets the area to what
    [calculatePolygonArea] returns when the path has three points or more and
    to [null] otherwise; the not-enough-points message appears for one or two
    points. *)
Theorem stop_releases_watch w :
  reachable w → isTracking (app w) = true →
  ∃ id, watchId (app w) = Some id ∧
        Call_clearWatch id ∈ calls_of (handler_of ClickToggle) w ∧
        watches (dispatch ClickToggle w) = [] ∧
        app (dispatch ClickToggle w) =
          {| isTracking := false;
             path := path (app w);
             area := if decide (2 < length (path (app w)))%nat
                     then Some (calculatePolygonArea (path (app w))) else None;
             selectedUnit := selectedUnit (app w);
             error := if decide (1 ≤ length (path (app w)) ≤ 2)%nat
                      then Some notEnoughPoints else error (app w);
             watchId := None;
             isGeoSupported := isGeoSupported (app w);
             currentAccuracy := None |}.
Proof.
  intros Hr Htr.
  pose proof (reachable_sound _ _ _ Hr) as ([Hs Hg] & (Hw & Ht & Hn) & _).
  destruct w as [[tr pa ar un er wi gs ac] geo ws nx]; simpl in *. subst.
  destruct Hw as [-> | (x & -> & ->)]; [by destruct (Ht eq_refl)|].
  destruct x as [xi xr]; simpl in *. exists xi. split; [done|].
  destruct geo; [|by destruct (Hg eq_refl) as (_ & _ & ? & _)].
  step_handlers; filter_watches; repeat case_decide; try lia;
    repeat split; try done; set_solver.
Qed.

(** An active watch answers to its handle, and is the only one. *)
Lemma find_watch_inv w id x :
  reachable w → find_watch id w = Some x →
  watches w = [x] ∧ watch_id x = id ∧ watchId (app w) = Some id ∧
  geolocation w = true ∧ isGeoSupported (app w) = true.
Proof.
  intros Hr Hf.
  pose proof (reachable_sound _ _ _ Hr) as ([Hs Hg] & (Hw & _ & _) & _).
  assert (geolocation w = true) as Hgeo
    by (eapply find_watch_Some; [exact Hf | by split]).
  unfold find_watch in Hf.
  destruct Hw as [Hw | (y & Hw & Hy)]; rewrite Hw in Hf; simpl in Hf; [done|].
  case_bool_decide; simplify_eq. rewrite Hs. done.
Qed.

(** X5: a fix of an active watch appends its point at the end of the path
    and stores its accuracy; it clears the error message only if a message was
    shown when the walk was started (the callback reads the [error] of that
    render); nothing else changes and the watch stays. *)
Theorem fix_is_appended w id x la lo acc :
  reachable w → find_watch id w = Some x →
  app (dispatch (Position id la lo acc) w) =
    with_error (if JS.truthy (error (watch_render x)) then None else error (app w))
      (with_currentAccuracy (Some acc)
         (with_path (path (app w) ++ [{| lat := la; lng := lo |}]) (app w))) ∧
  watches (dispatch (Position id la lo acc) w) = watches w ∧
  nextWatchId (dispatch (Position id la lo acc) w) = nextWatchId w ∧
  geolocation (dispatch (Position id la lo acc) w) = geolocation w.
Proof.
  intros Hr Hf.
  destruct (find_watch_inv w id x Hr Hf) as (Hw & Hid & Hwi & Hgeo & Hsup).
  unfold_dispatch. rewrite Hf.
  destruct w as [[tr pa ar un er wi gs ac] geo ws nx]; simpl in *. subst.
  destruct x as [xi [rtr rpa rar run rer rwi rgs rac]]; simpl in *.
  run_handlers. destruct (JS.truthy rer); simpl; step_handlers; done.
Qed.

(** X6: an error of an active watch turns tracking off and sets a non-empty
    message, keeping path, area and unit. The watch is cleared, and the handle
    dropped, only if a handle was held when the walk was started (the callback
    reads the [watchId] of that render). *)
Theorem position_error_effect w id x code msg :
  reachable w → find_watch id w = Some x →
  app (dispatch (PositionError id code msg) w) =
    with_error (Some (errorMessage code msg))
      (with_watchId (match watchId (watch_render x) with Some _ => None | None => watchId (app w) end)
         (with_isTracking false (app w))) ∧
  watches (dispatch (PositionError id code msg) w) =
    (match watchId (watch_render x) with Some _ => [] | None => watches w end) ∧
  JS.truthy (error (app (dispatch (PositionError id code msg) w))) = true.
Proof.
  intros Hr Hf.
  destruct (find_watch_inv w id x Hr Hf) as (Hw & Hid & Hwi & Hgeo & Hsup).
  unfold_dispatch. rewrite Hf.
  destruct w as [[tr pa ar un er wi gs ac] geo ws nx]; simpl in *. subst.
  destruct x as [xi [rtr rpa rar run rer rwi rgs rac]]; simpl in *.
  destruct rwi as [o|]; step_handlers; filter_watches;
    repeat split; try done; exact (errorMessage_truthy code msg).
Qed.

(** X7: whatever the event and the world, the path afterwards is the path
    before, or the empty path, or the path before with one point added at its
    end: recorded points are never dropped one by one, changed or reordered. *)
Theorem path_only_grows_or_resets ev w :
  path (app (dispatch ev w)) = path (app w) ∨
  path (app (dispatch ev w)) = [] ∨
  ∃ p, path (app (dispatch ev w)) = path (app w) ++ [p].
Proof.
  destruct w as [[tr pa ar un er wi gs ac] geo ws nx].
  destruct ev; step_handlers; eauto.
Qed.
End Events.

(** ** Whole walks *)

Section Runs.

Context (calculatePolygonArea : list GeoPoint → float).
Context (Number_toString : float → string).

Local Abbreviation reachable := (reachable calculatePolygonArea Number_toString).
Local Abbreviation dispatch := (dispatch calculatePolygonArea Number_toString).
Local Abbreviation handler_of := (handler_of calculatePolygonArea Number_toString).
Local Abbreviation run := (run calculatePolygonArea Number_toString).

Lemma run_app evs1 evs2 w : run (evs1 ++ evs2) w = run evs2 (run evs1 w).
Proof. apply fold_left_app. Qed.

Lemma last_accuracy_cons f fs before :
  last_accuracy (f :: fs) before = last_accuracy fs (Some (accuracy f)).
Proof.
  unfold last_accuracy. rewrite last_cons. by destruct (last fs).
Qed.

Lemma World_eq w a g ws n :
  app w = a → geolocation w = g → watches w = ws → nextWatchId w = n →
  w = mkWorld a g ws n.
Proof. destruct w; simpl; by intros -> -> -> ->. Qed.

(** The fixes of the active watch are recorded one after the other. *)
Lemma run_fixes id r fs : ∀ v,
  reachable v → watches v = [mkWatch id r] → error (app v) = None →
  run (fixes_of id fs) v =
    mkWorld
      (with_currentAccuracy (last_accuracy fs (currentAccuracy (app v)))
         (with_path (path (app v) ++ map point_of fs) (app v)))
      (geolocation v) (watches v) (nextWatchId v).
Proof.
  induction fs as [|f fs IH]; intros v Hr Hw He.
  - simpl. rewrite app_nil_r. by destruct v as [[]].
  - change (run (fixes_of id (f :: fs)) v)
      with (run (fixes_of id fs)
              (dispatch (Position id (latitude f) (longitude f) (accuracy f)) v)).
    assert (find_watch id v = Some (mkWatch id r)) as Hf.
    { unfold find_watch. rewrite Hw. simpl. by rewrite bool_decide_eq_true_2. }
    destruct (fix_is_appended calculatePolygonArea Number_toString v id _
                (latitude f) (longitude f) (accuracy f) Hr Hf)
      as (Happ & Hws & Hnx & Hgeo).
    rewrite IH.
    + rewrite Happ, Hws, Hnx, Hgeo, last_accuracy_cons.
      destruct v as [[tr pa ar un er wi gs ac] geo ws nx]; simpl in *. subst er.
      rewrite <- app_assoc. destruct (JS.truthy (error r)); reflexivity.
    + by constructor.
    + by rewrite Hws.
    + rewrite Happ. simpl. rewrite He. by destruct (JS.truthy (error r)).
Qed.

(** X8: from an idle reachable world with geolocation, a walk (start, the
    fixes of the new watch, stop) leaves as path the points of the fixes in
    the order received, as area what [calculatePolygonArea] returns on them
    when they are three or more and [null] otherwise, the not-enough-points
    message for one or two fixes and no message otherwise, and no watch. *)
Theorem walk_result w fs :
  reachable w → isTracking (app w) = false → geolocation w = true →
  app (run (walk (nextWatchId w) fs) w) =
    {| isTracking := false;
       path := map point_of fs;
       area := if decide (2 < length fs)%nat
               then Some (calculatePolygonArea (map point_of fs)) else None;
       selectedUnit := selectedUnit (app w);
       error := if decide (1 ≤ length fs ≤ 2)%nat then Some notEnoughPoints else None;
       watchId := None; isGeoSupported := true; currentAccuracy := None |} ∧
  watches (run (walk (nextWatchId w) fs) w) = [].
Proof.
  intros Hr Htr Hgeo.
  destruct (start_registers_one_watch calculatePolygonArea Number_toString w Hr Htr Hgeo)
    as (Happ & Hws & Hnx & Hg).
  assert (reachable (dispatch ClickToggle w)) as Hr1 by by constructor.
  change (run (walk (nextWatchId w) fs) w)
    with (run (fixes_of (nextWatchId w) fs ++ [ClickToggle]) (dispatch ClickToggle w)).
  rewrite run_app.
  pose proof (run_fixes (nextWatchId w) (app w) fs _ Hr1 Hws) as Hfix.
  rewrite Happ in Hfix. specialize (Hfix eq_refl). simpl in Hfix.
  set (w2 := run (fixes_of (nextWatchId w) fs) (dispatch ClickToggle w)) in *.
  assert (reachable w2) as Hr2 by by apply reachable_run.
  assert (isTracking (app w2) = true) as Htr2 by by rewrite Hfix.
  destruct (stop_releases_watch calculatePolygonArea Number_toString w2 Hr2 Htr2)
    as (id & _ & _ & Hws3 & Happ3).
  change (run [ClickToggle] w2) with (dispatch ClickToggle w2).
  split; [|exact Hws3].
  rewrite Happ3, Hfix. simpl. rewrite length_map. reflexivity.
Qed.

(** X9: in a walk started while no handle was held, a position error turns
    tracking off but leaves the watch active, and a fix that follows is still
    recorded although tracking is off. *)
Theorem error_leaves_watch_active w code msg la lo acc :
  reachable w → isTracking (app w) = false → geolocation w = true →
  watchId (app w) = None →
  isTracking (app (run [ClickToggle; PositionError (nextWatchId w) code msg] w)) = false ∧
  watches (run [ClickToggle; PositionError (nextWatchId w) code msg] w)
    = [mkWatch (nextWatchId w) (app w)] ∧
  isTracking (app (run [ClickToggle; PositionError (nextWatchId w) code msg;
                        Position (nextWatchId w) la lo acc] w)) = false ∧
  path (app (run [ClickToggle; PositionError (nextWatchId w) code msg;
                  Position (nextWatchId w) la lo acc] w)) = [{| lat := la; lng := lo |}].
Proof.
  intros Hr Htr Hgeo Hwi.
  destruct (start_registers_one_watch calculatePolygonArea Number_toString w Hr Htr Hgeo)
    as (Happ & Hws & Hnx & Hg).
  assert (reachable (dispatch ClickToggle w)) as Hr1 by by constructor.
  assert (find_watch (nextWatchId w) (dispatch ClickToggle w)
          = Some (mkWatch (nextWatchId w) (app w))) as Hf.
  { unfold find_watch. rewrite Hws. simpl. by rewrite bool_decide_eq_true_2. }
  destruct (position_error_effect calculatePolygonArea Number_toString _ _ _ code msg Hr1 Hf)
    as (Happ2 & Hws2 & _).
  simpl in Happ2, Hws2. rewrite Hwi in Happ2, Hws2.
  set (w2 := dispatch (PositionError (nextWatchId w) code msg) (dispatch ClickToggle w)) in *.
  assert (reachable w2) as Hr2 by by constructor.
  assert (find_watch (nextWatchId w) w2 = Some (mkWatch (nextWatchId w) (app w))) as Hf2.
  { unfold find_watch. rewrite Hws2, Hws. simpl. by rewrite bool_decide_eq_true_2. }
  destruct (fix_is_appended calculatePolygonArea Number_toString _ _ _ la lo acc Hr2 Hf2)
    as (Happ3 & _).
  change (run [ClickToggle; PositionError (nextWatchId w) code msg] w) with w2.
  change (run [ClickToggle; PositionError (nextWatchId w) code msg;
               Position (nextWatchId w) la lo acc] w)
    with (dispatch (Position (nextWatchId w) la lo acc) w2).
  rewrite Happ3, Happ2, Hws2, Hws, Happ. simpl. done.
Qed.

Lemma dispatch_geolocation ev w : geolocation (dispatch ev w) = geolocation w.
Proof.
  destruct w as [[tr pa ar un er wi gs ac] geo ws nx].
  destruct ev; step_handlers; done.
Qed.

(** X10: without [navigator.geolocation] the component stays as mounted,
    with tracking off, no path, no result and the unsupported message, but for
    the selected unit; no watch is ever registered and no event makes a call
    or throws. *)
Theorem without_geolocation_inert w :
  reachable w → geolocation w = false →
  app w = with_selectedUnit (selectedUnit (app w)) (app (mount false)) ∧
  watches w = [] ∧
  ∀ ev, calls_of (handler_of ev) w = [] ∧ returns (handler_of ev) w = true.
Proof.
  intros Hr. induction Hr as [geo | ev w Hr IH]; intros Hgeo.
  - destruct geo; [discriminate Hgeo|].
    split; [reflexivity|]. split; [reflexivity|].
    intros ev. destruct ev; split; reflexivity.
  - rewrite dispatch_geolocation in Hgeo.
    destruct (IH Hgeo) as (Happ & Hws & _).
    destruct w as [a geo ws nx]; simpl in *. subst geo ws. rewrite Happ.
    destruct a as [tr pa ar un er wi gs ac]; simpl.
    destruct ev; (split; [reflexivity|]); (split; [reflexivity|]);
      intros ev'; destruct ev'; split; reflexivity.
Qed.

End Runs.

(** ** What is shown, and that no handler throws *)

Section Display.

Context (calculatePolygonArea : list GeoPoint → float).
Context (Number_toString : float → string).

Local Abbreviation reachable := (reachable calculatePolygonArea Number_toString).
Local Abbreviation dispatch := (dispatch calculatePolygonArea Number_toString).
Local Abbreviation handler_of := (handler_of calculatePolygonArea Number_toString).
Local Abbreviation run := (run calculatePolygonArea Number_toString).

(** X11: in every reachable world, the handler of every event and the
    effect cleanup that follows return normally: [navigator.geolocation] is
    never read when absent. *)
Theorem handlers_never_throw w ev :
  reachable w →
  returns (handler_of ev) w = true ∧
  returns (watchCleanup (app w)) (world_after (handler_of ev) w) = true.
Proof.
  intros Hr.
  pose proof (reachable_sound _ _ _ Hr) as ([Hs Hg] & (Hw & Ht & Hn) & _).
  destruct w as [[tr pa ar un er wi gs ac] geo ws nx]; simpl in *. subst.
  destruct geo.
  - clear Hg. destruct Hw as [-> | (x & -> & ->)].
    + destruct ev; step_handlers; done.
    + destruct x as [xi xr]. destruct ev; step_handlers; done.
  - destruct (Hg eq_refl) as (-> & -> & -> & ->).
    destruct ev; step_handlers; done.
Qed.

(** X12: after a walk of three fixes or more and a click on the unit [u],
    the area is the one computed for the walk, the value shown is its product
    with the factor of [u], and the label shown is the one of [u]. *)
Theorem walk_shown_value w fs u :
  reachable w → isTracking (app w) = false → geolocation w = true →
  (2 < length fs)%nat →
  area (app (run (walk (nextWatchId w) fs ++ [ClickUnit u]) w))
    = Some (calculatePolygonArea (map point_of fs)) ∧
  convertedArea (app (run (walk (nextWatchId w) fs ++ [ClickUnit u]) w))
    = (calculatePolygonArea (map point_of fs) *
       match u with
       | SQ_METERS => 1
       | SQ_FEET => 10.7639
       | ACRES => 0.000247105
       | HECTARES => 0.0001
       end)%float ∧
  unitLabel (app (run (walk (nextWatchId w) fs ++ [ClickUnit u]) w))
    = Some (match u with
            | SQ_METERS => "Square Meters"
            | SQ_FEET => "Square Feet"
            | ACRES => "Acres"
            | HECTARES => "Hectares"
            end).
Proof.
  intros Hr Htr Hgeo Hlen.
  destruct (walk_result calculatePolygonArea Number_toString w fs Hr Htr Hgeo)
    as (Happ & Hws).
  rewrite run_app.
  set (w' := run (walk (nextWatchId w) fs) w) in *.
  change (run [ClickUnit u] w') with (dispatch (ClickUnit u) w').
  assert (app (dispatch (ClickUnit u) w') = with_selectedUnit u (app w')) as ->.
  { destruct w' as [[tr pa ar un er wi gs ac] geo ws nx]. step_handlers; done. }
  rewrite Happ. rewrite decide_True by done.
  unfold convertedArea, unitLabel. simpl.
  rewrite declared_unit_factor, declared_unit_label. done.
Qed.

End Display.

(** ** The further properties on the sample walks *)

Lemma mount_reachable geo : reachable sampleArea ECMAScript.Number_toString (mount geo).
Proof. constructor. Qed.

Lemma unsupported_reachable : reachable sampleArea ECMAScript.Number_toString unsupported.
Proof. apply reachable_run. constructor. Qed.

(** X1 on the walk of four fixes, still tracking. *)
Lemma one_watch_at_most_square :
  reachable sampleArea ECMAScript.Number_toString walkSquare ∧
  isTracking (app walkSquare) = true ∧
  ∃ x, watches walkSquare = [x] ∧ watchId (app walkSquare) = Some (watch_id x).
Proof.
  split; [apply sampleRun_reachable|]. split; [reflexivity|].
  destruct (one_watch_at_most sampleArea ECMAScript.Number_toString walkSquare
              (sampleRun_reachable _)) as (_ & _ & H).
  apply H. reflexivity.
Defined.

(** X2 on the finished walk. *)
Lemma result_is_area_of_path_done :
  reachable sampleArea ECMAScript.Number_toString walkDone ∧
  area (app walkDone) = Some 12390%float ∧
  12390%float = sampleArea (path (app walkDone)) ∧
  (2 < length (path (app walkDone)))%nat ∧
  watches walkDone = [] ∧ isTracking (app walkDone) = false.
Proof.
  split; [apply walkDone_reachable|]. split; [reflexivity|].
  apply (result_is_area_of_path sampleArea ECMAScript.Number_toString walkDone).
  - apply walkDone_reachable.
  - reflexivity.
Defined.

(** X3 on the finished walk: a second walk starts with the watch 2. *)
Lemma start_registers_one_watch_done :
  reachable sampleArea ECMAScript.Number_toString walkDone ∧
  isTracking (app walkDone) = false ∧ geolocation walkDone = true ∧
  watches (dispatch sampleArea ECMAScript.Number_toString ClickToggle walkDone)
    = [mkWatch 2 (app walkDone)] ∧
  path (app (dispatch sampleArea ECMAScript.Number_toString ClickToggle walkDone)) = [].
Proof.
  split; [apply walkDone_reachable|]. split; [reflexivity|]. split; [reflexivity|].
  destruct (start_registers_one_watch sampleArea ECMAScript.Number_toString walkDone
              walkDone_reachable eq_refl eq_refl) as (Happ & Hws & _).
  split; [exact Hws|]. rewrite Happ. reflexivity.
Defined.

(** X4 on the walk of four fixes. *)
Lemma stop_releases_watch_square :
  reachable sampleArea ECMAScript.Number_toString walkSquare ∧
  isTracking (app walkSquare) = true ∧
  watches (dispatch sampleArea ECMAScript.Number_toString ClickToggle walkSquare) = [] ∧
  area (app (dispatch sampleArea ECMAScript.Number_toString ClickToggle walkSquare))
    = Some 12390%float.
Proof.
  split; [apply sampleRun_reachable|]. split; [reflexivity|].
  destruct (stop_releases_watch sampleArea ECMAScript.Number_toString walkSquare
              (sampleRun_reachable _) eq_refl) as (id & _ & _ & Hws & Happ).
  split; [exact Hws|]. rewrite Happ. reflexivity.
Defined.

(** X5 on the walk with one fix: a second fix comes second. *)
Lemma fix_is_appended_one_point :
  reachable sampleArea ECMAScript.Number_toString walkOnePoint ∧
  find_watch 1 walkOnePoint = Some (mkWatch 1 (app (mount true))) ∧
  path (app (dispatch sampleArea ECMAScript.Number_toString
               (Position 1 33.6853125 73.0489 3.25) walkOnePoint))
    = [ {| lat := 33.684412345; lng := 73.047912345 |};
        {| lat := 33.6853125; lng := 73.0489 |} ]%float.
Proof.
  split; [apply sampleRun_reachable|]. split; [reflexivity|].
  destruct (fix_is_appended sampleArea ECMAScript.Number_toString walkOnePoint 1
              (mkWatch 1 (app (mount true))) 33.6853125 73.0489 3.25
              (sampleRun_reachable _) eq_refl) as (Happ & _).
  rewrite Happ. reflexivity.
Defined.

(** X6 on a walk just started: a timeout. *)
Lemma position_error_effect_started :
  reachable sampleArea ECMAScript.Number_toString walkStarted ∧
  find_watch 1 walkStarted = Some (mkWatch 1 (app (mount true))) ∧
  error (app (dispatch sampleArea ECMAScript.Number_toString
                (PositionError 1 3 "Timeout expired") walkStarted))
    = Some "Could not get location in time. Please check your network or GPS signal." ∧
  watches (dispatch sampleArea ECMAScript.Number_toString
             (PositionError 1 3 "Timeout expired") walkStarted)
    = watches walkStarted.
Proof.
  split; [apply sampleRun_reachable|]. split; [reflexivity|].
  destruct (position_error_effect sampleArea ECMAScript.Number_toString walkStarted 1
              (mkWatch 1 (app (mount true))) 3 "Timeout expired"
              (sampleRun_reachable _) eq_refl) as (Happ & Hws & _).
  split; [rewrite Happ; reflexivity | exact Hws].
Defined.

(** X8 on a first walk of three fixes. *)
Lemma walk_result_three_fixes :
  reachable sampleArea ECMAScript.Number_toString (mount true) ∧
  isTracking (app (mount true)) = false ∧ geolocation (mount true) = true ∧
  path (app (run sampleArea ECMAScript.Number_toString (walk 1 sampleFixes) (mount true)))
    = map point_of sampleFixes ∧
  area (app (run sampleArea ECMAScript.Number_toString (walk 1 sampleFixes) (mount true)))
    = Some 12390%float.
Proof.
  split; [apply mount_reachable|]. split; [reflexivity|]. split; [reflexivity|].
  destruct (walk_result sampleArea ECMAScript.Number_toString (mount true) sampleFixes
              (mount_reachable true) eq_refl eq_refl) as (Happ & _).
  change (nextWatchId (mount true)) with 1%Z in Happ.
  rewrite Happ. split; reflexivity.
Defined.

(** X9 on a first walk. *)
Lemma error_leaves_watch_active_first_walk :
  reachable sampleArea ECMAScript.Number_toString (mount true) ∧
  isTracking (app (mount true)) = false ∧ geolocation (mount true) = true ∧
  watchId (app (mount true)) = None ∧
  watches (run sampleArea ECMAScript.Number_toString
             [ClickToggle; PositionError 1 3 "Timeout expired"] (mount true))
    = [mkWatch 1 (app (mount true))] ∧
  path (app (run sampleArea ECMAScript.Number_toString
               [ClickToggle; PositionError 1 3 "Timeout expired";
                Position 1 33.6853125 73.0489 3.25] (mount true)))
    = [ {| lat := 33.6853125; lng := 73.0489 |} ]%float.
Proof.
  split; [apply mount_reachable|]. split; [reflexivity|]. split; [reflexivity|].
  split; [reflexivity|].
  destruct (error_leaves_watch_active sampleArea ECMAScript.Number_toString (mount true)
              3 "Timeout expired" 33.6853125 73.0489 3.25
              (mount_reachable true) eq_refl eq_refl eq_refl) as (_ & Hws & _ & Hpath).
  split; [exact Hws | exact Hpath].
Defined.

(** X10 on a browser without geolocation, after a click on the button and
    one on a unit. *)
Lemma without_geolocation_inert_clicked :
  reachable sampleArea ECMAScript.Number_toString unsupported ∧
  geolocation unsupported = false ∧
  app unsupported = with_selectedUnit ACRES (app (mount false)) ∧
  watches unsupported = [].
Proof.
  split; [apply unsupported_reachable|]. split; [reflexivity|].
  destruct (without_geolocation_inert sampleArea ECMAScript.Number_toString unsupported
              unsupported_reachable eq_refl) as (Happ & Hws & _).
  split; [exact Happ | exact Hws].
Defined.

(** X11 on the walk of four fixes and a click on stop. *)
Lemma handlers_never_throw_square :
  reachable sampleArea ECMAScript.Number_toString walkSquare ∧
  returns (handler_of sampleArea ECMAScript.Number_toString ClickToggle) walkSquare = true.
Proof.
  split; [apply sampleRun_reachable|].
  destruct (handlers_never_throw sampleArea ECMAScript.Number_toString walkSquare
              ClickToggle (sampleRun_reachable _)) as [Hret _].
  exact Hret.
Defined.

(** X12 on a first walk of three fixes shown in acres. *)
Lemma walk_shown_value_acres :
  reachable sampleArea ECMAScript.Number_toString (mount true) ∧
  isTracking (app (mount true)) = false ∧ geolocation (mount true) = true ∧
  (2 < length sampleFixes)%nat ∧
  convertedArea (app (run sampleArea ECMAScript.Number_toString
                        (walk 1 sampleFixes ++ [ClickUnit ACRES]) (mount true)))
    = (12390 * 0.000247105)%float ∧
  unitLabel (app (run sampleArea ECMAScript.Number_toString
                    (walk 1 sampleFixes ++ [ClickUnit ACRES]) (mount true)))
    = Some "Acres".
Proof.
  split; [apply mount_reachable|]. split; [reflexivity|]. split; [reflexivity|].
  assert (2 < length sampleFixes)%nat as Hlen by (simpl; lia).
  split; [exact Hlen|].
  destruct (walk_shown_value sampleArea ECMAScript.Number_toString (mount true)
              sampleFixes ACRES (mount_reachable true) eq_refl eq_refl Hlen)
    as (_ & Hshown & Hlabel).
  split; [exact Hshown | exact Hlabel].
Defined.

(** X13 on the walk of four fixes. *)
Lemma stopTracking_computes_area_square :
  reachable sampleArea ECMAScript.Number_toString walkSquare ∧
  (2 < length (path (app walkSquare)))%nat ∧
  filter (fun c => is_calculatePolygonArea c = true)
    (calls_of (stopTracking sampleArea (app walkSquare)) walkSquare)
    = [Call_calculatePolygonArea (path (app walkSquare))] ∧
  area (app (world_after (stopTracking sampleArea (app walkSquare)) walkSquare))
    = Some (sampleArea (path (app walkSquare))).
Proof.
  split; [apply sampleRun_reachable|].
  assert (2 < length (path (app walkSquare)))%nat as Hlen by (vm_compute; lia).
  split; [exact Hlen|].
  destruct (stopTracking_computes_area sampleArea ECMAScript.Number_toString walkSquare
              (sampleRun_reachable _) Hlen) as (_ & Hcalls & Harea & _).
  split; [exact Hcalls | exact Harea].
Defined.
